(** * Cocaine core: deferred results, RPC slots, framed transport, drivers

    A shallow embedding of
      - include/cocaine/rpc/slots/deferred.hpp  (module [Deferred]),
      - include/cocaine/lines.hpp               (module [Lines]),
      - include/cocaine/drivers/abstract.hpp    (module [Drivers]),
    with the properties of the specification stated and proved over it.
    The MessagePack codec the channel calls is not part of these sources;
    module [MsgPack] models it from the specification.

    Conventions.  A C++ [int] is a [Z] (no arithmetic is performed on the
    codes and flags below except bitwise or).  A [std::string] is a
    [string]; the bytes of a [zmq::message_t] are a [list byte].  A
    [std::shared_ptr<upstream_t>] is an [option U], [None] being the null
    pointer and [U] the identity of the pointed-to upstream.  Calls on
    objects whose classes are not part of these sources (the upstream, the
    ZeroMQ socket, syslog) are recorded in traces, in program order. *)

From Stdlib Require Import List String Ascii ZArith Bool.
From Stdlib Require Import Strings.Byte.
From Stdlib Require Import Lia.
Import ListNotations.

Local Open Scope string_scope.
Local Open Scope Z_scope.
Local Open Scope list_scope.

(** * Part I: the model *)

(** ** deferred.hpp: the single-assignment future and the slot *)

Module Deferred.

Section FutureState.

(** [T] is the result type of the event ([result_of<Event>::type]); for
    [deferred<void>] it is instantiated with [Empty_set], which leaves the
    [value_type] arm without inhabitant, as
    [future_state_base<void>::result_type] has no such alternative. *)
Variable T : Type.

(** Identities of [upstream_t] objects. *)
Variable U : Type.

(** [boost::variant<unassigned, value_type<T>, error_type, empty_type>]. *)
Inductive result_type : Type :=
| unassigned
| value_type (value : T)
| error_type (code : Z) (reason : string)
| empty_type.

(** The calls the visitor issues on an upstream:
    [send<streaming<T>::chunk>(v)], [send<streaming<T>::error>(c, r)] and
    [seal<streaming<T>::choke>()]. *)
Inductive call : Type :=
| send_chunk (v : T)
| send_error (code : Z) (reason : string)
| seal_choke.

(** One call together with the upstream it is issued on. *)
Definition event : Type := (U * call)%type.

(** The data members of [future_state<T>]; the mutex is represented by the
    atomicity of the methods below: every method holds it from entry to
    exit, so a concurrent execution is an interleaving of whole methods. *)
Record future_state : Type := mk_state {
  result : result_type;
  upstream : option U
}.

(** A freshly constructed state: the variant default-constructs its first
    alternative and the shared pointer is null. *)
Definition new_state : future_state := mk_state unassigned None.

(** [boost::get<unassigned>(&result)] as a truth value. *)
Definition is_unassigned (r : result_type) : bool :=
  match r with
  | unassigned => true
  | _ => false
  end.

(** [result_visitor_t(upstream)] applied to the variant. *)
Definition result_visitor_t (u : U) (r : result_type) : list event :=
  match r with
  | unassigned => []
  | value_type v => [(u, send_chunk v); (u, seal_choke)]
  | error_type c m => [(u, send_error c m); (u, seal_choke)]
  | empty_type => [(u, seal_choke)]
  end.

(** [flush()]: [if(upstream) boost::apply_visitor(...)]. *)
Definition flush (s : future_state) : list event :=
  match upstream s with
  | Some u => result_visitor_t u (result s)
  | None => []
  end.

(** [future_state_base<T>::write(T&& value)]. *)
Definition write (value : T) (s : future_state) : future_state * list event :=
  if is_unassigned (result s)
  then let s' := mk_state (value_type value) (upstream s) in (s', flush s')
  else (s, []).

(** [future_state<T>::abort(int code, const std::string& reason)]. *)
Definition abort (code : Z) (reason : string) (s : future_state)
  : future_state * list event :=
  if is_unassigned (result s)
  then let s' := mk_state (error_type code reason) (upstream s) in (s', flush s')
  else (s, []).

(** [future_state<T>::close()]. *)
Definition close (s : future_state) : future_state * list event :=
  if is_unassigned (result s)
  then let s' := mk_state empty_type (upstream s) in (s', flush s')
  else (s, []).

(** The shape the three producer methods share: if the result is still
    unassigned, store [r] and flush. *)
Definition assign (r : result_type) (s : future_state)
  : future_state * list event :=
  if is_unassigned (result s)
  then let s' := mk_state r (upstream s) in (s', flush s')
  else (s, []).

(** [attach(upstream_)]: store the pointer, then flush unless the result
    is unassigned. *)
Definition attach (upstream_ : option U) (s : future_state)
  : future_state * list event :=
  let s' := mk_state (result s) upstream_ in
  if negb (is_unassigned (result s')) then (s', flush s') else (s', []).

(** The method calls a state can receive, from the producer
    ([deferred<T>::write], [abort], [deferred<void>::close]) and from the
    slot ([attach]). *)
Inductive op : Type :=
| op_write (value : T)
| op_abort (code : Z) (reason : string)
| op_close
| op_attach (upstream_ : option U).

Definition step (o : op) : future_state -> future_state * list event :=
  match o with
  | op_write v => write v
  | op_abort c m => abort c m
  | op_close => close
  | op_attach u => attach u
  end.

(** A serialised history of method calls: the final state and everything
    that was issued on upstreams, in order. *)
Fixpoint run (ops : list op) (s : future_state) : future_state * list event :=
  match ops with
  | [] => (s, [])
  | o :: rest =>
      let (s1, out1) := step o s in
      let (s2, out2) := run rest s1 in
      (s2, out1 ++ out2)
  end.

(** The arm a producer call stores when it finds the state unassigned;
    [attach] stores none. *)
Definition arm (o : op) : result_type :=
  match o with
  | op_write v => value_type v
  | op_abort c m => error_type c m
  | op_close => empty_type
  | op_attach _ => unassigned
  end.

Definition is_attach (o : op) : bool :=
  match o with
  | op_attach _ => true
  | _ => false
  end.

(** The arm of the first producer call of a history, [unassigned] when it
    has none. *)
Fixpoint first_terminal (ops : list op) : result_type :=
  match ops with
  | [] => unassigned
  | o :: rest => if is_attach o then first_terminal rest else arm o
  end.

(** The result a history without [attach] leaves, from result [r]. *)
Definition settle (r : result_type) (ops : list op) : result_type :=
  if is_unassigned r then first_terminal ops else r.

Definition no_attach (ops : list op) : Prop :=
  forallb (fun o => negb (is_attach o)) ops = true.

(** Number of [seal<choke>()] calls issued on upstreams in a trace. *)
Fixpoint seals (out : list event) : nat :=
  match out with
  | [] => O
  | (_, seal_choke) :: rest => S (seals rest)
  | _ :: rest => seals rest
  end.

(** *** [deferred_slot] *)

(** What [this->call(unpacked)] can throw, by the catch clause that
    matches the thrown object: a [std::system_error] (or a class derived
    from it) with its [code().value()], [code().message()] and [what()];
    any other class derived from [std::exception] with its [what()]; or an
    object of a type that does not derive from [std::exception], which
    C++ allows a callable to throw. *)
Inductive thrown : Type :=
| std_system_error (value : Z) (message : string) (what : string)
| std_exception (what : string)
| foreign_object.

(** How [this->call(unpacked)] ends: with a deferred, given by the shared
    state it points to as the call left it, or with an exception. *)
Inductive called : Type :=
| returned (state : future_state)
| threw (e : thrown).

(** [dispatch_t], of which the slot only ever returns a null pointer. *)
Variable dispatch_t : Type.

(** The error code the slot reports for exceptions that carry none (an
    enumerator of the error codes header). *)
Variable invocation_error : Z.

(** How [operator()] ends. *)
Inductive slot_exit : Type :=
| exit_return (continuation : option dispatch_t)
| exit_unwind (e : thrown).

(** What one invocation of the slot leaves behind. *)
Record slot_run : Type := mk_slot_run {
  slot_end : slot_exit;
  (** the state of the deferred the handler returned, after [attach] *)
  slot_state : option future_state;
  (** the calls issued on upstreams, in order *)
  slot_out : list event
}.

(** [deferred_slot::operator()]: the upstream is the caller's, a non-null
    pointer (the catch clauses dereference it unconditionally).  The
    upstream's [send] and [seal] are taken not to throw. *)
Definition deferred_slot (c : called) (upstream_ : U) : slot_run :=
  match c with
  | returned state =>
      let (state', out) := attach (Some upstream_) state in
      mk_slot_run (exit_return None) (Some state') out
  | threw (std_system_error value message _) =>
      mk_slot_run (exit_return None) None
        [(upstream_, send_error value message); (upstream_, seal_choke)]
  | threw (std_exception what) =>
      mk_slot_run (exit_return None) None
        [(upstream_, send_error invocation_error what); (upstream_, seal_choke)]
  | threw foreign_object =>
      mk_slot_run (exit_unwind foreign_object) None []
  end.

(** The handler's outcome is one the slot has a catch clause for. *)
Definition anticipated (c : called) : bool :=
  match c with
  | threw foreign_object => false
  | _ => true
  end.

(** On exit, [u] is attached to the deferred the handler returned. *)
Definition attached_to (r : slot_run) (u : U) : Prop :=
  exists state, slot_state r = Some state /\ upstream state = Some u.

(** On exit, the last call issued is [seal<choke>()] on [u]. *)
Definition sealed (r : slot_run) (u : U) : Prop :=
  exists before, slot_out r = before ++ [(u, seal_choke)].

End FutureState.

Arguments unassigned {T}.
Arguments value_type {T} value.
Arguments error_type {T} code reason.
Arguments empty_type {T}.
Arguments send_chunk {T} v.
Arguments send_error {T} code reason.
Arguments seal_choke {T}.
Arguments mk_state {T U} result upstream.
Arguments result {T U} f.
Arguments upstream {T U} f.
Arguments new_state {T U}.
Arguments is_unassigned {T} r.
Arguments result_visitor_t {T U} u r.
Arguments flush {T U} s.
Arguments assign {T U} r s.
Arguments write {T U} value s.
Arguments abort {T U} code reason s.
Arguments close {T U} s.
Arguments attach {T U} upstream_ s.
Arguments op_write {T U} value.
Arguments op_abort {T U} code reason.
Arguments op_close {T U}.
Arguments op_attach {T U} upstream_.
Arguments step {T U} o _.
Arguments run {T U} ops s.
Arguments arm {T U} o.
Arguments is_attach {T U} o.
Arguments first_terminal {T U} ops.
Arguments no_attach {T U} ops.
Arguments settle {T U} r ops.
Arguments seals {T U} out.
Arguments returned {T U} state.
Arguments threw {T U} e.
Arguments exit_return {dispatch_t} continuation.
Arguments exit_unwind {dispatch_t} e.
Arguments mk_slot_run {T U dispatch_t} slot_end slot_state slot_out.
Arguments slot_end {T U dispatch_t} s.
Arguments slot_state {T U dispatch_t} s.
Arguments slot_out {T U dispatch_t} s.
Arguments deferred_slot {T U} dispatch_t invocation_error c upstream_.
Arguments anticipated {T U} c.
Arguments attached_to {T U dispatch_t} r u.
Arguments sealed {T U dispatch_t} r u.

End Deferred.

(** ** lines.hpp: the socket wrapper and the typed channel *)

Module Lines.

(** [ZMQ_SNDMORE] of zmq.h and [LOG_ERR] of syslog.h. *)
Definition ZMQ_SNDMORE : Z := 2.
Definition LOG_ERR : Z := 3.

(** Whether flags carry [ZMQ_SNDMORE], the bit of weight 2. *)
Definition more_follows (flags : Z) : bool := Z.testbit flags 1.

(** The payload of a [zmq::message_t]. *)
Definition message_t : Type := list byte.

(** A computation either yields a value or throws a [zmq::error_t], of
    which the wrapper only reads [what()]. *)
Inductive outcome (A : Type) : Type :=
| ok (a : A)
| raised (what : string).

Arguments ok {A} a.
Arguments raised {A} what.

(** A line handed to syslog: priority and formatted text. *)
Definition log_line : Type := (Z * string)%type.

(** One call of [zmq::socket_t::send] as [socket_t::send] made it: the
    message, the flags, and what [socket_t::send] returned for it. *)
Record frame : Type := mk_frame {
  frame_data : message_t;
  frame_flags : Z;
  frame_sent : bool
}.

(** [std::string::find_last_of] for a one-character set: the index of the
    last occurrence, [None] standing for [npos]. *)
Fixpoint find_last_of (s : string) (c : ascii) : option nat :=
  match s with
  | EmptyString => None
  | String a rest =>
      match find_last_of rest c with
      | Some i => Some (S i)
      | None => if Ascii.eqb a c then Some O else None
      end
  end.

(** [s.substr(pos, npos)] for [pos <= s.size()]: the characters from
    index [pos] on. *)
Fixpoint substr (s : string) (pos : nat) : string :=
  match pos, s with
  | O, _ => s
  | S p, String _ rest => substr rest p
  | S _, EmptyString => EmptyString
  end.

(** Whether [c] occurs in [s]. *)
Fixpoint occurs (c : ascii) (s : string) : bool :=
  match s with
  | EmptyString => false
  | String a rest => Ascii.eqb a c || occurs c rest
  end.

(** [s.c_str()] as a C function reads it: up to the first NUL. *)
Fixpoint c_str (s : string) : string :=
  match s with
  | EmptyString => EmptyString
  | String a rest => if Ascii.eqb a zero then EmptyString else String a (c_str rest)
  end.

(** [message.rebuild(n)]: a fresh buffer of [n] bytes. *)
Definition rebuild (n : nat) : message_t := repeat x00 n.

(** [memcpy(dest, src, n)] on buffers that hold at least [n] bytes. *)
Definition memcpy (dest src : list byte) (n : nat) : list byte :=
  firstn n src ++ skipn n dest.

(** ["net: [%s()] %s"]. *)
Definition format_net (func what : string) : string :=
  ("net: [" ++ func ++ "()] " ++ what)%string.

(** ["net: [%s()] corrupted object - %s"]. *)
Definition format_corrupted (func what : string) : string :=
  ("net: [" ++ func ++ "()] corrupted object - " ++ what)%string.

Section Socket.

(** The ZeroMQ binding is not part of these sources: the state of a
    [zmq::socket_t] and its three calls are left abstract.  A call returns
    or throws [zmq::error_t]; [recv] yields [Some m] when it returns true
    having filled the message with [m], [None] when it returns false. *)
Variable zmq_socket : Type.
Variable zmq_send : message_t -> Z -> zmq_socket -> outcome bool * zmq_socket.
Variable zmq_recv : Z -> zmq_socket -> outcome (option message_t) * zmq_socket.
Variable zmq_bind : string -> zmq_socket -> outcome unit * zmq_socket.

(** [config_t::get().core.hostname]. *)
Variable hostname : string.

(** The data members of [socket_t]. *)
Record socket_t : Type := mk_socket {
  m_socket : zmq_socket;
  m_endpoint : string;
  m_route : string
}.

(** A socket together with what the process has written to syslog and
    the frames it has handed to the transport. *)
Record world : Type := mk_world {
  self : socket_t;
  logged : list log_line;
  frames : list frame
}.

(** The socket of [w] with its transport state replaced. *)
Definition moved_to (z : zmq_socket) (w : world) : socket_t :=
  mk_socket z (m_endpoint (self w)) (m_route (self w)).

(** Member functions: state passing, with exceptions. *)
Definition net (A : Type) : Type := world -> outcome A * world.

Definition ret {A : Type} (a : A) : net A := fun w => (ok a, w).

Definition then_ {A B : Type} (c : net A) (k : A -> net B) : net B :=
  fun w =>
    match c w with
    | (ok a, w') => k a w'
    | (raised what, w') => (raised what, w')
    end.

(** [try { c } catch(const zmq::error_t& e) { handler(e.what()) }]. *)
Definition try_catch {A : Type} (c : net A) (handler : string -> net A) : net A :=
  fun w =>
    match c w with
    | (ok a, w') => (ok a, w')
    | (raised what, w') => handler what w'
    end.

Definition syslog (priority : Z) (text : string) : net unit :=
  fun w => (ok tt, mk_world (self w) (logged w ++ [(priority, text)]) (frames w)).

Definition record_frame (f : frame) : net unit :=
  fun w => (ok tt, mk_world (self w) (logged w) (frames w ++ [f])).

(** Run a call of the binding on [m_socket]. *)
Definition on_socket {A : Type} (f : zmq_socket -> outcome A * zmq_socket) : net A :=
  fun w =>
    let (r, z) := f (m_socket (self w)) in
    (r, mk_world (mk_socket z (m_endpoint (self w)) (m_route (self w)))
                 (logged w) (frames w)).

Definition set_endpoint (e : string) : net unit :=
  fun w =>
    (ok tt, mk_world (mk_socket (m_socket (self w)) e (m_route (self w)))
                     (logged w) (frames w)).

Notation "x <- c ;; k" := (then_ c (fun x => k))
  (at level 61, c at next level, right associativity).
Notation "c ;; k" := (then_ c (fun _ => k))
  (at level 61, right associativity).

(** [socket_t::send(zmq::message_t&, int)]. *)
Definition send (message : message_t) (flags : Z) : net bool :=
  sent <- try_catch
            (on_socket (zmq_send message flags))
            (fun what => syslog LOG_ERR (format_net "send" what) ;; ret false) ;;
  record_frame (mk_frame message flags sent) ;;
  ret sent.

(** [socket_t::recv(zmq::message_t*, int)]: the second component is the
    content of [*message] on return. *)
Definition recv (message : message_t) (flags : Z) : net (bool * message_t) :=
  try_catch
    (r <- on_socket (zmq_recv flags) ;;
     match r with
     | Some m => ret (true, m)
     | None => ret (false, message)
     end)
    (fun what => syslog LOG_ERR (format_net "recv" what) ;; ret (false, message)).

(** The connection string for clients that [socket_t::bind] determines
    from the endpoint (the [if]/[else] that assigns [m_endpoint]). *)
Definition advertised (endpoint : string) : string :=
  match find_last_of endpoint ":"%char with
  | Some position => (hostname ++ substr endpoint position)%string
  | None => "<local>"
  end.

(** [socket_t::bind]: an exception of [m_socket.bind] is not caught. *)
Definition bind (endpoint : string) : net unit :=
  on_socket (zmq_bind (c_str endpoint)) ;;
  set_endpoint (advertised endpoint).

(** *** [channel_t] *)

(** [channel_t::send<T>(const T&, int)]; [pack] is [msgpack::pack] at
    type [A], giving the content of the [sbuffer]. *)
Definition send_value {A : Type} (pack : A -> list byte) (value : A) (flags : Z)
  : net bool :=
  let buffer := pack value in
  let message := memcpy (rebuild (List.length buffer)) buffer (List.length buffer) in
  send message flags.

(** [raw<std::string>::pack] and [raw<const std::string>::pack]. *)
Definition raw_pack (m_object : string) : message_t :=
  let data := list_byte_of_string m_object in
  memcpy (rebuild (List.length data)) data (List.length data).

(** [raw<std::string>::unpack]: the new [m_object] and the result. *)
Definition raw_unpack (message : message_t) : string * bool :=
  (string_of_list_byte message, true).

(** [channel_t::send<T>(const raw<T>&, int)]. *)
Definition send_raw (object : string) (flags : Z) : net bool :=
  send (raw_pack object) flags.

(** An element of a [boost::tuple]: a value of a type msgpack can pack,
    with its packer, or a [raw] string. *)
Inductive element : Type :=
| elem_value {A : Type} (pack : A -> list byte) (value : A)
| elem_raw (object : string).

(** The overload of [send] that [o.get_head()] selects. *)
Definition send_head (head : element) (flags : Z) : net bool :=
  match head with
  | elem_value pack value => send_value pack value flags
  | elem_raw object => send_raw object flags
  end.

(** [channel_t::send_multi], over [null_type], [cons<Head, null_type>]
    and [cons<Head, Tail>]. *)
Fixpoint send_multi (o : list element) (flags : Z) : net bool :=
  match o with
  | [] => ret true
  | [head] => send_head head flags
  | head :: tail =>
      sent <- send_head head (Z.lor ZMQ_SNDMORE flags) ;;
      if sent then send_multi tail flags else ret false
  end.

(** [channel_t::recv<T>(T&, int)].  [unpack message result] is
    [msgpack::unpack] followed by [object.convert(&result)]: the content
    of [result] afterwards and, when either threw a [std::exception], its
    [what()].  The second component of the value is [result] on return. *)
Definition recv_value {A : Type} (unpack : message_t -> A -> A * option string)
    (result : A) (flags : Z) : net (bool * A) :=
  r <- recv [] flags ;;
  let (received, message) := r in
  if negb received then ret (false, result)
  else
    match unpack message result with
    | (result', Some what) =>
        syslog LOG_ERR (format_corrupted "recv" what) ;; ret (false, result')
    | (result', None) => ret (true, result')
    end.

(** [channel_t::recv<T>(raw<T>&, int)]. *)
Definition recv_raw (result : string) (flags : Z) : net (bool * string) :=
  r <- recv [] flags ;;
  let (received, message) := r in
  if negb received then ret (false, result)
  else let (m_object, unpacked) := raw_unpack message in ret (unpacked, m_object).

(** The frame [send_head] hands to the transport for an element. *)
Definition message_of (e : element) : message_t :=
  match e with
  | elem_value pack value => pack value
  | elem_raw object => list_byte_of_string object
  end.

(** What a frame shows of the call that sent it. *)
Definition as_sent (f : frame) : message_t * Z := (frame_data f, frame_flags f).

(** The calls a tuple asks for when every one of them succeeds: all
    elements but the last with [ZMQ_SNDMORE] or-ed into the caller's
    flags, the last with the caller's flags as they are. *)
Definition plan (o : list element) (flags : Z) : list (message_t * Z) :=
  map (fun e => (message_of e, Z.lor ZMQ_SNDMORE flags)) (removelast o)
  ++ [(message_of (last o (elem_raw "")), flags)].

(** A received frame decodes to [v] without error, whatever [result]
    held before. *)
Definition decodes_to {A : Type} (unpack : message_t -> A -> A * option string)
    (message : message_t) (v : A) : Prop :=
  forall result, unpack message result = (v, None).

End Socket.

Arguments mk_socket {zmq_socket} m_socket m_endpoint m_route.
Arguments m_socket {zmq_socket} s.
Arguments m_endpoint {zmq_socket} s.
Arguments m_route {zmq_socket} s.
Arguments mk_world {zmq_socket} self logged frames.
Arguments self {zmq_socket} w.
Arguments logged {zmq_socket} w.
Arguments frames {zmq_socket} w.
Arguments moved_to {zmq_socket} z w.
Arguments ret {zmq_socket A} a _.
Arguments then_ {zmq_socket A B} c k _.
Arguments try_catch {zmq_socket A} c handler _.
Arguments syslog {zmq_socket} priority text _.
Arguments record_frame {zmq_socket} f _.
Arguments on_socket {zmq_socket A} f _.
Arguments set_endpoint {zmq_socket} e _.
Arguments send {zmq_socket} zmq_send message flags _.
Arguments recv {zmq_socket} zmq_recv message flags _.
Arguments bind {zmq_socket} zmq_bind hostname endpoint _.
Arguments send_value {zmq_socket} zmq_send {A} pack value flags _.
Arguments send_raw {zmq_socket} zmq_send object flags _.
Arguments send_head {zmq_socket} zmq_send head flags _.
Arguments send_multi {zmq_socket} zmq_send o flags _.
Arguments recv_value {zmq_socket} zmq_recv {A} unpack result flags _.
Arguments recv_raw {zmq_socket} zmq_recv result flags _.

End Lines.

(** ** drivers/abstract.hpp: the driver base class *)

Module Drivers.

Section Driver.

(** Types declared outside these sources: the published dictionary, the
    overseer, the data source, the digest, and the state of the
    [net::msgpack_socket_t] behind [m_pipe] with its [send_tuple]. *)
Variable dict_t : Type.
Variable overseer_t : Type.
Variable source_t : Type.
Variable digest_t : Type.
Variable msgpack_socket_t : Type.
Variable send_tuple : string * dict_t -> msgpack_socket_t -> bool * msgpack_socket_t.

(** The data members of [abstract_driver_t]; a null [m_pipe] is [None]. *)
Record abstract_driver_t : Type := mk_driver {
  m_id : string;
  m_parent : overseer_t;
  m_source : source_t;
  m_pipe : option msgpack_socket_t;
  m_digest : digest_t
}.

(** [std::string::empty]. *)
Definition empty (s : string) : bool :=
  match s with
  | EmptyString => true
  | String _ _ => false
  end.

(** [abstract_driver_t::publish]: the driver afterwards and the tuples
    handed to [m_pipe->send_tuple]. *)
Definition publish (dict : dict_t) (d : abstract_driver_t)
  : abstract_driver_t * list (string * dict_t) :=
  match m_pipe d with
  | Some pipe =>
      if negb (empty (m_id d))
      then
        let (_, pipe') := send_tuple (m_id d, dict) pipe in
        (mk_driver (m_id d) (m_parent d) (m_source d) (Some pipe') (m_digest d),
         [(m_id d, dict)])
      else (d, [])
  | None => (d, [])
  end.

(** The guard of [publish]: a pipe is set and the id is not empty. *)
Definition can_publish (d : abstract_driver_t) : Prop :=
  m_pipe d <> None /\ m_id d <> EmptyString.

End Driver.

Arguments mk_driver {overseer_t source_t digest_t msgpack_socket_t} m_id m_parent m_source m_pipe m_digest.
Arguments m_id {overseer_t source_t digest_t msgpack_socket_t} a.
Arguments m_parent {overseer_t source_t digest_t msgpack_socket_t} a.
Arguments m_source {overseer_t source_t digest_t msgpack_socket_t} a.
Arguments m_pipe {overseer_t source_t digest_t msgpack_socket_t} a.
Arguments m_digest {overseer_t source_t digest_t msgpack_socket_t} a.
Arguments publish {dict_t overseer_t source_t digest_t msgpack_socket_t} send_tuple dict d.
Arguments can_publish {overseer_t source_t digest_t msgpack_socket_t} d.

End Drivers.

(** ** Concrete collaborators for the examples *)

Module Doubles.

Import Lines.

(** A transport that hands back what it was given: frames accepted by
    [send] queue up for [recv].  [script] lists what the next calls of
    [send] do (accept when exhausted); once [broken], every call throws
    with that reason. *)
Record loopback : Type := mk_loopback {
  script : list (outcome bool);
  queue : list message_t;
  broken : option string
}.

Definition lo_send (message : message_t) (flags : Z) (z : loopback)
  : outcome bool * loopback :=
  match broken z with
  | Some what => (raised what, z)
  | None =>
      match script z with
      | [] => (ok true, mk_loopback [] (queue z ++ [message]) None)
      | ok true :: rest => (ok true, mk_loopback rest (queue z ++ [message]) None)
      | r :: rest => (r, mk_loopback rest (queue z) None)
      end
  end.

Definition lo_recv (flags : Z) (z : loopback)
  : outcome (option message_t) * loopback :=
  match broken z with
  | Some what => (raised what, z)
  | None =>
      match queue z with
      | [] => (ok None, z)
      | m :: rest => (ok (Some m), mk_loopback (script z) rest None)
      end
  end.

Definition lo_bind (endpoint : string) (z : loopback) : outcome unit * loopback :=
  match broken z with
  | Some what => (raised what, z)
  | None => (ok tt, z)
  end.

(** A socket on such a transport, with nothing logged or sent yet. *)
Definition fresh (z : loopback) : world loopback :=
  mk_world (mk_socket z "" "") [] [].

Definition idle : loopback := mk_loopback [] [] None.

(** MessagePack's encoding of a boolean: [0xc2] is false, [0xc3] true. *)
Definition pack_bool (b : bool) : list byte :=
  if b then [xc3] else [xc2].

Definition unpack_bool (message : message_t) (result : bool) : bool * option string :=
  match message with
  | [xc3] => (true, None)
  | [xc2] => (false, None)
  | _ => (result, Some "std::bad_cast")
  end.

(** A pipe that keeps the tuples it was given. *)
Definition keep_tuple (t : string * nat) (pipe : list (string * nat))
  : bool * list (string * nat) :=
  (true, pipe ++ [t]).

End Doubles.

(** ** deferred.hpp: the handles [deferred<T>] and [deferred<void>] *)

Module Handles.

Import Deferred.

Section Handle.

Variable T : Type.
Variable U : Type.

(** The member functions of [deferred<T>]: [write] and [abort], each
    forwarding to the shared state.  The state itself is private; besides
    the handle only [deferred_slot], a friend, reaches it. *)
Inductive deferred_call : Type :=
| call_write (value : T)
| call_abort (code : Z) (reason : string).

(** What happens to the state behind a [deferred<T>]: a call through the
    handle, or an [attach] by a slot. *)
Inductive deferred_event : Type :=
| by_handle (c : deferred_call)
| by_slot (upstream_ : option U).

(** The method of [future_state<T>] each one invokes. *)
Definition lower (e : deferred_event) : op T U :=
  match e with
  | by_handle (call_write value) => op_write value
  | by_handle (call_abort code reason) => op_abort code reason
  | by_slot upstream_ => op_attach upstream_
  end.

(** The upstream every call of a trace is issued on is [u]. *)
Definition only_on (u : U) (out : list (event T U)) : Prop :=
  Forall (fun e => fst e = u) out.

End Handle.

Arguments call_write {T} value.
Arguments call_abort {T} code reason.
Arguments by_handle {T U} c.
Arguments by_slot {T U} upstream_.
Arguments lower {T U} e.
Arguments only_on {T U} u out.

End Handles.

(** ** lines.hpp: the rest of the socket and of the channel *)

Module Channel.

Import Lines.

Section More.

Variable zmq_socket : Type.
Variable zmq_send : message_t -> Z -> zmq_socket -> outcome bool * zmq_socket.
Variable zmq_recv : Z -> zmq_socket -> outcome (option message_t) * zmq_socket.
Variable zmq_bind : string -> zmq_socket -> outcome unit * zmq_socket.

(** [zmq::socket_t::connect], like the other calls of the binding. *)
Variable zmq_connect : string -> zmq_socket -> outcome unit * zmq_socket.

(** [socket_t::more], declared in the class and defined outside these
    sources: a query of the transport that returns or throws. *)
Variable zmq_more : zmq_socket -> outcome bool * zmq_socket.

Variable hostname : string.

Notation "x <- c ;; k" := (then_ c (fun x => k))
  (at level 61, c at next level, right associativity).
Notation "c ;; k" := (then_ c (fun _ => k))
  (at level 61, right associativity).

(** [socket_t::connect]: nothing but the call of the binding. *)
Definition connect (endpoint : string) : net zmq_socket unit :=
  on_socket (zmq_connect (c_str endpoint)).

(** Calls that set up a socket. *)
Inductive setup : Type :=
| do_bind (endpoint : string)
| do_connect (endpoint : string).

Definition setup_call (c : setup) : net zmq_socket unit :=
  match c with
  | do_bind endpoint => bind zmq_bind hostname endpoint
  | do_connect endpoint => connect endpoint
  end.

(** Such calls one after another; an exception ends the sequence. *)
Fixpoint setup_all (cs : list setup) : net zmq_socket unit :=
  match cs with
  | [] => ret tt
  | c :: rest => setup_call c ;; setup_all rest
  end.

(** The endpoint of the last [do_bind] of a sequence. *)
Fixpoint last_bound (cs : list setup) : option string :=
  match cs with
  | [] => None
  | c :: rest =>
      match last_bound rest, c with
      | Some e, _ => Some e
      | None, do_bind e => Some e
      | None, do_connect _ => None
      end
  end.

(** [channel_t::ignore]: [while(more()) recv(&null)].  The loop is cut
    after [fuel] tests of [more()]; [None] says it was cut, [Some tt] that
    it ended. *)
Fixpoint ignore (fuel : nat) : net zmq_socket (option unit) :=
  match fuel with
  | O => ret None
  | S fuel' =>
      again <- on_socket zmq_more ;;
      if again then recv zmq_recv [] 0 ;; ignore fuel' else ret (Some tt)
  end.

(** The transport holds [k] more frames of the current message: [more()]
    says so [k] times, each time followed by a receive (of whatever
    outcome), then says no; [z'] is the transport afterwards. *)
Fixpoint remaining (k : nat) (z z' : zmq_socket) : Prop :=
  match k with
  | O => zmq_more z = (ok false, z')
  | S k' =>
      exists z1, zmq_more z = (ok true, z1)
                 /\ remaining k' (snd (zmq_recv 0 z1)) z'
  end.

(** What a loop over [k] further frames writes to syslog: one line for
    each receive that throws, none for one that returns. *)
Fixpoint drain_log (k : nat) (z : zmq_socket) : list log_line :=
  match k with
  | O => []
  | S k' =>
      match zmq_recv 0 (snd (zmq_more z)) with
      | (raised what, z2) =>
          (LOG_ERR, format_net "recv" what) :: drain_log k' z2
      | (ok _, z2) => drain_log k' z2
      end
  end.

(** Transports on which [more()] never says no: from a transport in [P]
    it says yes, and the receive that follows, whatever its outcome,
    leaves a transport in [P]. *)
Definition stuck (P : zmq_socket -> Prop) : Prop :=
  forall z, P z ->
    exists z1, zmq_more z = (ok true, z1) /\ P (snd (zmq_recv 0 z1)).

(** An element of a tuple to receive into: an object of a type msgpack
    can convert to, with its converter and its current content, or a
    [raw] string with its current content. *)
Inductive target : Type :=
| target_value {A : Type} (unpack : message_t -> A -> A * option string)
    (result : A)
| target_raw (result : string).

(** The overload of [recv] that [o.get_head()] selects; the element
    comes back with its content on return. *)
Definition recv_head (head : target) (flags : Z) : net zmq_socket (bool * target) :=
  match head with
  | target_value unpack result =>
      r <- recv_value zmq_recv unpack result flags ;;
      ret (fst r, target_value unpack (snd r))
  | target_raw result =>
      r <- recv_raw zmq_recv result flags ;;
      ret (fst r, target_raw (snd r))
  end.

(** [channel_t::recv_multi], over [null_type] and [cons<Head, Tail>]: the
    tuple comes back with its contents on return. *)
Fixpoint recv_multi (o : list target) (flags : Z)
  : net zmq_socket (bool * list target) :=
  match o with
  | [] => ret (true, [])
  | head :: tail =>
      r <- recv_head head flags ;;
      let (received, head') := r in
      if received
      then r' <- recv_multi tail flags ;; ret (fst r', head' :: snd r')
      else ret (false, head' :: tail)
  end.

(** Successive receives with [flags] yield the frames [ms], in order,
    and leave the transport as [z']. *)
Fixpoint delivers (flags : Z) (ms : list message_t) (z z' : zmq_socket) : Prop :=
  match ms with
  | [] => z' = z
  | m :: rest =>
      exists z1, zmq_recv flags z = (ok (Some m), z1)
                 /\ delivers flags rest z1 z'
  end.

End More.

Arguments connect {zmq_socket} zmq_connect endpoint _.
Arguments setup_call {zmq_socket} zmq_bind zmq_connect hostname c _.
Arguments setup_all {zmq_socket} zmq_bind zmq_connect hostname cs _.
Arguments ignore {zmq_socket} zmq_recv zmq_more fuel _.
Arguments remaining {zmq_socket} zmq_recv zmq_more k z z'.
Arguments drain_log {zmq_socket} zmq_recv zmq_more k z.
Arguments stuck {zmq_socket} zmq_recv zmq_more P.
Arguments recv_head {zmq_socket} zmq_recv head flags _.
Arguments recv_multi {zmq_socket} zmq_recv o flags _.
Arguments delivers {zmq_socket} zmq_recv flags ms z z'.

End Channel.

(** ** lines.hpp: sequences of calls on one socket *)

Module Members.

Import Lines Channel.

Section Calls.

Variable zmq_socket : Type.
Variable zmq_send : message_t -> Z -> zmq_socket -> outcome bool * zmq_socket.
Variable zmq_recv : Z -> zmq_socket -> outcome (option message_t) * zmq_socket.
Variable zmq_bind : string -> zmq_socket -> outcome unit * zmq_socket.
Variable zmq_connect : string -> zmq_socket -> outcome unit * zmq_socket.
Variable zmq_more : zmq_socket -> outcome bool * zmq_socket.
Variable hostname : string.

(** A call of a member function of [socket_t] or [channel_t] defined in
    the header, with its arguments: the typed and raw sends and receives
    go by the element they send or receive into. *)
Inductive member : Type :=
| m_bind (endpoint : string)
| m_connect (endpoint : string)
| m_send (message : message_t) (flags : Z)
| m_recv (message : message_t) (flags : Z)
| m_send_one (value : element) (flags : Z)
| m_recv_one (result : target) (flags : Z)
| m_send_multi (o : list element) (flags : Z)
| m_recv_multi (o : list target) (flags : Z)
| m_ignore (fuel : nat).

(** The call, its value dropped. *)
Definition member_call (m : member) : net zmq_socket unit :=
  match m with
  | m_bind endpoint => bind zmq_bind hostname endpoint
  | m_connect endpoint => connect zmq_connect endpoint
  | m_send message flags =>
      then_ (send zmq_send message flags) (fun _ => ret tt)
  | m_recv message flags =>
      then_ (recv zmq_recv message flags) (fun _ => ret tt)
  | m_send_one value flags =>
      then_ (send_head zmq_send value flags) (fun _ => ret tt)
  | m_recv_one result flags =>
      then_ (recv_head zmq_recv result flags) (fun _ => ret tt)
  | m_send_multi o flags =>
      then_ (send_multi zmq_send o flags) (fun _ => ret tt)
  | m_recv_multi o flags =>
      then_ (recv_multi zmq_recv o flags) (fun _ => ret tt)
  | m_ignore fuel =>
      then_ (ignore zmq_recv zmq_more fuel) (fun _ => ret tt)
  end.

(** Calls one after another; an exception ends the sequence. *)
Fixpoint member_calls (ms : list member) : net zmq_socket unit :=
  match ms with
  | [] => ret tt
  | m :: rest => then_ (member_call m) (fun _ => member_calls rest)
  end.

Definition is_bind (m : member) : bool :=
  match m with
  | m_bind _ => true
  | _ => false
  end.

(** A computation leaves [m_route] as it finds it, however it ends, and
    [m_endpoint] too when [endpoint_too] is set. *)
Definition keeps (endpoint_too : bool) {A : Type} (c : net zmq_socket A) : Prop :=
  forall w,
    m_route (self (snd (c w))) = m_route (self w)
    /\ (endpoint_too = true ->
        m_endpoint (self (snd (c w))) = m_endpoint (self w)).

End Calls.

Arguments keeps {zmq_socket} endpoint_too {A} c.

Arguments member_call {zmq_socket} zmq_send zmq_recv zmq_bind zmq_connect zmq_more hostname m _.
Arguments member_calls {zmq_socket} zmq_send zmq_recv zmq_bind zmq_connect zmq_more hostname ms _.

End Members.

(** ** drivers/abstract.hpp: the constructor and repeated publishing *)

Module DriverRuns.

Import Drivers.

Section Runs.

Variable dict_t : Type.
Variable overseer_t : Type.
Variable source_t : Type.
Variable digest_t : Type.
Variable msgpack_socket_t : Type.
Variable send_tuple : string * dict_t -> msgpack_socket_t -> bool * msgpack_socket_t.

(** [abstract_driver_t(parent, source)]: the two members of the
    initialiser list; [m_id] default-constructs to the empty string and
    [m_pipe] to a null [auto_ptr]; [digest] is the default-constructed
    [security::digest_t]. *)
Definition construct (digest : digest_t) (parent : overseer_t) (source : source_t)
  : abstract_driver_t overseer_t source_t digest_t msgpack_socket_t :=
  mk_driver "" parent source None digest.

(** [publish] called for each dictionary in turn: the driver afterwards
    and all the tuples handed to the pipe, in order. *)
Fixpoint publish_all (dicts : list dict_t)
    (d : abstract_driver_t overseer_t source_t digest_t msgpack_socket_t)
  : abstract_driver_t overseer_t source_t digest_t msgpack_socket_t
    * list (string * dict_t) :=
  match dicts with
  | [] => (d, [])
  | dict :: rest =>
      let (d1, out1) := publish send_tuple dict d in
      let (d2, out2) := publish_all rest d1 in
      (d2, out1 ++ out2)
  end.

End Runs.

Arguments construct {overseer_t source_t digest_t} msgpack_socket_t digest parent source.
Arguments publish_all {dict_t overseer_t source_t digest_t msgpack_socket_t} send_tuple dicts d.

End DriverRuns.

(** ** More collaborators for the examples *)

Module MoreDoubles.

Import Lines Doubles.

(** [more()] on the loopback: frames are queued. *)
Definition lo_more (z : loopback) : outcome bool * loopback :=
  match broken z with
  | Some what => (raised what, z)
  | None =>
      match queue z with
      | [] => (ok false, z)
      | _ :: _ => (ok true, z)
      end
  end.

(** A transport with a message that never ends: [more()] always says
    yes and a receive always returns false. *)
Definition busy_more (z : unit) : outcome bool * unit := (ok true, z).

Definition busy_recv (flags : Z) (z : unit) : outcome (option message_t) * unit :=
  (ok None, z).

(** [connect] on the loopback. *)
Definition lo_connect (endpoint : string) (z : loopback) : outcome unit * loopback :=
  match broken z with
  | Some what => (raised what, z)
  | None => (ok tt, z)
  end.

End MoreDoubles.

(** ** The MessagePack codec *)

Module MsgPack.

Import Lines.

(** Modelled from the spec: the self-describing codec behind
    [msgpack::pack], [msgpack::unpack] and [object::convert] is the
    MessagePack library, whose code is not part of these sources.  The
    spec asks for a codec that interoperates with MessagePack at the value
    level (nil, bool, int, uint, float, str, bin, array, map); a value is
    such a datum, with an integer split into its non-negative and its
    negative range and a float given by its IEEE bit pattern. *)
#[warnings="-register-all"]
Inductive value : Type :=
| Nil
| Bool (b : bool)
| Uint (n : Z)
| Int (z : Z)
| F32 (bits : Z)
| F64 (bits : Z)
| Str (s : list byte)
| Bin (s : list byte)
| Arr (items : list value)
| Map (entries : list (value * value)).

(** Modelled from the spec: a byte as a number and back. *)
Definition of_byte (b : byte) : Z := Z.of_N (Byte.to_N b).

(** Modelled from the spec: a number below 256 as a byte. *)
Definition byte_of (n : Z) : byte :=
  match Byte.of_N (Z.to_N n) with
  | Some b => b
  | None => x00
  end.

(** Modelled from the spec: the [k] bytes of a number, most significant
    first. *)
Fixpoint be (k : nat) (n : Z) : list byte :=
  match k with
  | O => []
  | S k' => be k' (n / 256) ++ [byte_of (n mod 256)]
  end.

(** Modelled from the spec: the number such bytes stand for. *)
Definition from_be (bs : list byte) : Z :=
  fold_left (fun acc b => acc * 256 + of_byte b) bs 0.

(** Modelled from the spec: a non-negative integer, in the smallest of
    the format's unsigned families. *)
Definition encode_uint (n : Z) : list byte :=
  if n <? 128 then [byte_of n]
  else if n <? 256 then xcc :: be 1 n
  else if n <? 65536 then xcd :: be 2 n
  else if n <? 4294967296 then xce :: be 4 n
  else xcf :: be 8 n.

(** Modelled from the spec: a negative integer, in the smallest of the
    format's signed families. *)
Definition encode_int (z : Z) : list byte :=
  if -32 <=? z then [byte_of (256 + z)]
  else if -128 <=? z then xd0 :: be 1 (256 + z)
  else if -32768 <=? z then xd1 :: be 2 (65536 + z)
  else if -2147483648 <=? z then xd2 :: be 4 (4294967296 + z)
  else xd3 :: be 8 (18446744073709551616 + z).

(** Modelled from the spec: the header of a string of [len] bytes. *)
Definition str_header (len : Z) : list byte :=
  if len <? 32 then [byte_of (160 + len)]
  else if len <? 256 then xd9 :: be 1 len
  else if len <? 65536 then xda :: be 2 len
  else xdb :: be 4 len.

(** Modelled from the spec: the header of a byte string. *)
Definition bin_header (len : Z) : list byte :=
  if len <? 256 then xc4 :: be 1 len
  else if len <? 65536 then xc5 :: be 2 len
  else xc6 :: be 4 len.

(** Modelled from the spec: the header of an array of [len] items. *)
Definition arr_header (len : Z) : list byte :=
  if len <? 16 then [byte_of (144 + len)]
  else if len <? 65536 then xdc :: be 2 len
  else xdd :: be 4 len.

(** Modelled from the spec: the header of a map of [len] entries. *)
Definition map_header (len : Z) : list byte :=
  if len <? 16 then [byte_of (128 + len)]
  else if len <? 65536 then xde :: be 2 len
  else xdf :: be 4 len.

(** Modelled from the spec: [msgpack::pack], the bytes of a value. *)
Fixpoint encode (v : value) : list byte :=
  match v with
  | Nil => [xc0]
  | Bool false => [xc2]
  | Bool true => [xc3]
  | Uint n => encode_uint n
  | Int z => encode_int z
  | F32 bits => xca :: be 4 bits
  | F64 bits => xcb :: be 8 bits
  | Str s => str_header (Z.of_nat (List.length s)) ++ s
  | Bin s => bin_header (Z.of_nat (List.length s)) ++ s
  | Arr items =>
      arr_header (Z.of_nat (List.length items)) ++ flat_map encode items
  | Map entries =>
      map_header (Z.of_nat (List.length entries))
      ++ flat_map (fun kv : value * value =>
                     let (k, x) := kv in encode k ++ encode x) entries
  end.

(** Modelled from the spec: what the first byte of an encoded value
    announces; [w] is the number of bytes of the number that follows. *)
Inductive tag : Type :=
| t_uint (n : Z)
| t_neg (z : Z)
| t_nil
| t_false
| t_true
| t_f32
| t_f64
| t_u (w : nat)
| t_i (w : nat)
| t_str (len : Z)
| t_strn (w : nat)
| t_bin (w : nat)
| t_arr (len : Z)
| t_arrn (w : nat)
| t_map (len : Z)
| t_mapn (w : nat)
| t_invalid.

(** Modelled from the spec: the tag a first byte stands for. *)
Definition classify (t : Z) : tag :=
  if t <? 128 then t_uint t
  else if t <? 144 then t_map (t - 128)
  else if t <? 160 then t_arr (t - 144)
  else if t <? 192 then t_str (t - 160)
  else if 224 <=? t then t_neg (t - 256)
  else
    match t with
    | 192 => t_nil
    | 194 => t_false
    | 195 => t_true
    | 196 => t_bin 1
    | 197 => t_bin 2
    | 198 => t_bin 4
    | 202 => t_f32
    | 203 => t_f64
    | 204 => t_u 1
    | 205 => t_u 2
    | 206 => t_u 4
    | 207 => t_u 8
    | 208 => t_i 1
    | 209 => t_i 2
    | 210 => t_i 4
    | 211 => t_i 8
    | 217 => t_strn 1
    | 218 => t_strn 2
    | 219 => t_strn 4
    | 220 => t_arrn 2
    | 221 => t_arrn 4
    | 222 => t_mapn 2
    | 223 => t_mapn 4
    | _ => t_invalid
    end.

(** Modelled from the spec: the first [k] bytes and the rest, when there
    are that many. *)
Definition take (k : nat) (bs : list byte) : option (list byte * list byte) :=
  if (k <=? List.length bs)%nat then Some (firstn k bs, skipn k bs) else None.

(** Modelled from the spec: read a number of [w] bytes and go on. *)
Definition with_number {A : Type} (w : nat) (bs : list byte)
    (k : Z -> list byte -> option A) : option A :=
  match take w bs with
  | Some (h, rest) => k (from_be h) rest
  | None => None
  end.

(** Modelled from the spec: a two's complement number of [w] bytes. *)
Definition signed (w : nat) (n : Z) : value :=
  if n <? 2 ^ (8 * Z.of_nat w - 1) then Uint n
  else Int (n - 2 ^ (8 * Z.of_nat w)).

(** Modelled from the spec: a string or byte string of [len] bytes. *)
Definition bytes_of (wrap : list byte -> value) (len : Z) (bs : list byte)
  : option (value * list byte) :=
  match take (Z.to_nat len) bs with
  | Some (s, rest) => Some (wrap s, rest)
  | None => None
  end.

(** Modelled from the spec: [k] items in a row, each read by [dec]. *)
Fixpoint decode_seq {A : Type} (dec : list byte -> option (A * list byte))
    (k : nat) (bs : list byte) : option (list A * list byte) :=
  match k with
  | O => Some ([], bs)
  | S k' =>
      match dec bs with
      | Some (x, bs1) =>
          match decode_seq dec k' bs1 with
          | Some (xs, bs2) => Some (x :: xs, bs2)
          | None => None
          end
      | None => None
      end
  end.

(** Modelled from the spec: a key and its value. *)
Definition decode_pair (dec : list byte -> option (value * list byte))
    (bs : list byte) : option ((value * value) * list byte) :=
  match dec bs with
  | Some (k, bs1) =>
      match dec bs1 with
      | Some (x, bs2) => Some ((k, x), bs2)
      | None => None
      end
  | None => None
  end.

(** Modelled from the spec: an array of [len] items. *)
Definition items_of (dec : list byte -> option (value * list byte))
    (len : Z) (bs : list byte) : option (value * list byte) :=
  match decode_seq dec (Z.to_nat len) bs with
  | Some (items, rest) => Some (Arr items, rest)
  | None => None
  end.

(** Modelled from the spec: a map of [len] entries. *)
Definition entries_of (dec : list byte -> option (value * list byte))
    (len : Z) (bs : list byte) : option (value * list byte) :=
  match decode_seq (decode_pair dec) (Z.to_nat len) bs with
  | Some (entries, rest) => Some (Map entries, rest)
  | None => None
  end.

(** Modelled from the spec: the value a tag announces, read from the
    bytes after it; [dec] reads a nested value. *)
Definition decode_tag (dec : list byte -> option (value * list byte))
    (t : tag) (rest : list byte) : option (value * list byte) :=
  match t with
  | t_uint n => Some (Uint n, rest)
  | t_neg z => Some (Int z, rest)
  | t_nil => Some (Nil, rest)
  | t_false => Some (Bool false, rest)
  | t_true => Some (Bool true, rest)
  | t_f32 => with_number 4 rest (fun n r => Some (F32 n, r))
  | t_f64 => with_number 8 rest (fun n r => Some (F64 n, r))
  | t_u w => with_number w rest (fun n r => Some (Uint n, r))
  | t_i w => with_number w rest (fun n r => Some (signed w n, r))
  | t_str len => bytes_of Str len rest
  | t_strn w => with_number w rest (bytes_of Str)
  | t_bin w => with_number w rest (bytes_of Bin)
  | t_arr len => items_of dec len rest
  | t_arrn w => with_number w rest (items_of dec)
  | t_map len => entries_of dec len rest
  | t_mapn w => with_number w rest (entries_of dec)
  | t_invalid => None
  end.

(** Modelled from the spec: [msgpack::unpack], one value from the front
    of the bytes and what follows it; [fuel] bounds the nesting. *)
Fixpoint decode (fuel : nat) (bs : list byte) : option (value * list byte) :=
  match fuel with
  | O => None
  | S fuel' =>
      match bs with
      | [] => None
      | b :: rest => decode_tag (decode fuel') (classify (of_byte b)) rest
      end
  end.

(** Modelled from the spec: the nesting depth of a value. *)
Fixpoint height (v : value) : nat :=
  match v with
  | Arr items => S (fold_right (fun x h => Nat.max (height x) h) O items)
  | Map entries =>
      S (fold_right
           (fun (kv : value * value) h =>
              Nat.max (let (k, x) := kv in Nat.max (height k) (height x)) h)
           O entries)
  | _ => 1%nat
  end.

(** Modelled from the spec: the values the codec represents: integers of
    at most 64 bits, floats of 32 and 64 bits, strings, byte strings,
    arrays and maps of fewer than 2^32 elements, of such values. *)
Fixpoint representable (v : value) : bool :=
  match v with
  | Nil | Bool _ => true
  | Uint n => (0 <=? n) && (n <? 18446744073709551616)
  | Int z => (-9223372036854775808 <=? z) && (z <? 0)
  | F32 bits => (0 <=? bits) && (bits <? 4294967296)
  | F64 bits => (0 <=? bits) && (bits <? 18446744073709551616)
  | Str s | Bin s => Z.of_nat (List.length s) <? 4294967296
  | Arr items =>
      (Z.of_nat (List.length items) <? 4294967296) && forallb representable items
  | Map entries =>
      (Z.of_nat (List.length entries) <? 4294967296)
      && forallb (fun kv : value * value =>
                    let (k, x) := kv in representable k && representable x)
           entries
  end.

(** Modelled from the spec: [msgpack::pack] at the type of values, as
    the typed send takes it. *)
Definition pack (v : value) : list byte := encode v.

(** Modelled from the spec: [msgpack::unpack] with [object::convert] at
    the type of values, as the typed receive takes it: a message that
    does not parse leaves the result and throws. *)
Definition unpack (message : Lines.message_t) (result : value)
  : value * option string :=
  match decode (S (List.length message)) message with
  | Some (v, _) => (v, None)
  | None => (result, Some "parse error")
  end.

End MsgPack.

(** * Part II: properties *)

(** ** The deferred state *)

Module DeferredFacts.

Import Deferred.

Section Facts.

Context {T U : Type}.

Implicit Types (s : future_state T U) (o : op T U) (ops : list (op T U)).
Implicit Types (r : result_type T) (u : U).

Lemma is_unassigned_true r : is_unassigned r = true <-> r = unassigned.
Proof. destruct r; simpl; split; congruence. Qed.

Lemma is_unassigned_false r : is_unassigned r = false <-> r <> unassigned.
Proof. destruct r; simpl; split; congruence. Qed.

Lemma assign_fresh r s :
  result s = unassigned ->
  assign r s = (mk_state r (upstream s), flush (mk_state r (upstream s))).
Proof. intros H. unfold assign. rewrite H. reflexivity. Qed.

Lemma assign_settled r s : result s <> unassigned -> assign r s = (s, []).
Proof.
  intros H. unfold assign.
  apply is_unassigned_false in H. rewrite H. reflexivity.
Qed.

(** A producer call is [assign] of its arm. *)
Lemma step_producer o s : is_attach o = false -> step o s = assign (arm o) s.
Proof. destruct o; simpl; intros H; try reflexivity; discriminate. Qed.

Lemma arm_terminal o : is_attach o = false -> arm o <> unassigned.
Proof. destruct o; simpl; intros H; congruence. Qed.

(** No method ever changes a result that is not unassigned. *)
Lemma step_keeps_result o s :
  result s <> unassigned -> result (fst (step o s)) = result s.
Proof.
  intros H. destruct (is_attach o) eqn:Ho.
  - destruct o; try discriminate. unfold step, attach. simpl.
    destruct (negb (is_unassigned (result s))); reflexivity.
  - rewrite step_producer by exact Ho. now rewrite assign_settled.
Qed.

Lemma run_cons o ops s :
  run (o :: ops) s =
  (fst (run ops (fst (step o s))), snd (step o s) ++ snd (run ops (fst (step o s)))).
Proof.
  simpl. destruct (step o s) as [s1 out1]. simpl.
  destruct (run ops s1) as [s2 out2]. reflexivity.
Qed.

Lemma run_app ops1 ops2 s :
  run (ops1 ++ ops2) s =
  (fst (run ops2 (fst (run ops1 s))),
   snd (run ops1 s) ++ snd (run ops2 (fst (run ops1 s)))).
Proof.
  revert s. induction ops1 as [|o ops1 IH]; intros s.
  - simpl. destruct (run ops2 s); reflexivity.
  - rewrite <- app_comm_cons. rewrite !run_cons. rewrite IH. simpl.
    rewrite app_assoc. reflexivity.
Qed.

Lemma run_keeps_result ops s :
  result s <> unassigned -> result (fst (run ops s)) = result s.
Proof.
  revert s. induction ops as [|o ops IH]; intros s H; [reflexivity|].
  rewrite run_cons. simpl.
  rewrite IH; rewrite step_keeps_result by exact H; auto.
Qed.

Lemma flush_unassigned (p : option U) : flush (mk_state (@unassigned T) p) = [].
Proof. destruct p; reflexivity. Qed.

(** Producer calls alone: the first one settles the result and flushes
    to whatever upstream is attached; the others do nothing. *)
Lemma run_producers ops s :
  no_attach ops ->
  run ops s =
  (mk_state (settle (result s) ops) (upstream s),
   if is_unassigned (result s)
   then flush (mk_state (first_terminal ops) (upstream s))
   else []).
Proof.
  unfold no_attach. revert s.
  induction ops as [|o ops IH]; intros s H.
  - simpl. unfold settle. destruct s as [r p]; simpl.
    destruct r; simpl; try reflexivity. now rewrite flush_unassigned.
  - simpl in H. apply andb_prop in H as [Ho H].
    apply negb_true_iff in Ho.
    rewrite run_cons, step_producer by exact Ho.
    destruct (is_unassigned (result s)) eqn:E.
    + apply is_unassigned_true in E.
      rewrite assign_fresh by exact E. simpl.
      rewrite IH by exact H. simpl.
      pose proof (arm_terminal o Ho) as Ht.
      apply is_unassigned_false in Ht.
      unfold settle. rewrite E, Ht. simpl. rewrite Ho.
      now rewrite app_nil_r.
    + apply is_unassigned_false in E.
      rewrite assign_settled by exact E. simpl.
      rewrite IH by exact H.
      apply is_unassigned_false in E.
      unfold settle. rewrite E. reflexivity.
Qed.

Lemma first_terminal_app ops1 ops2 :
  no_attach ops1 ->
  first_terminal (ops1 ++ ops2) = settle (first_terminal ops1) ops2.
Proof.
  unfold no_attach, settle. induction ops1 as [|o ops1 IH]; intros H.
  - reflexivity.
  - simpl in H. apply andb_prop in H as [Ho H].
    apply negb_true_iff in Ho. simpl. rewrite Ho.
    pose proof (arm_terminal o Ho) as Ht.
    apply is_unassigned_false in Ht. now rewrite Ht.
Qed.

Lemma seals_visitor u r : r <> unassigned -> seals (result_visitor_t u r) = 1%nat.
Proof. destruct r; simpl; congruence. Qed.

End Facts.

Section Claims.

Context {T U : Type}.

Implicit Types (s : future_state T U) (o : op T U) (ops : list (op T U)).
Implicit Types (r : result_type T) (u : U).

(** C1, single assignment.  A producer call ([write], [abort], [close])
    that finds the result unassigned stores its own arm (Value, Error or
    Empty), keeps the attached upstream and flushes; a producer call that
    finds any other result returns the state as it was and issues no call
    on any upstream; no history of calls, [attach] included, changes a
    result once it is not unassigned; so along any history from a fresh
    state, the arm observed after a prefix is the arm observed ever
    after. *)
Theorem single_assignment :
  (forall o s, is_attach o = false -> result s = unassigned ->
     step o s = (mk_state (arm o) (upstream s),
                 flush (mk_state (arm o) (upstream s)))
     /\ arm o <> unassigned)
  /\ (forall o s, is_attach o = false -> result s <> unassigned ->
        step o s = (s, []))
  /\ (forall ops s, result s <> unassigned ->
        result (fst (run ops s)) = result s)
  /\ (forall ops1 ops2,
        result (fst (run ops1 (@new_state T U))) <> unassigned ->
        result (fst (run (ops1 ++ ops2) new_state))
        = result (fst (run ops1 new_state))).
Proof.
  repeat split.
  - rewrite step_producer by assumption. now apply assign_fresh.
  - now apply arm_terminal.
  - intros o s Ho Hs. rewrite step_producer by assumption.
    now apply assign_settled.
  - intros ops s. apply run_keeps_result.
  - intros ops1 ops2 H. rewrite run_app. simpl.
    now apply run_keeps_result.
Qed.

(** C4, terminal delivery mapping.  With an upstream [u] attached, what
    [flush] issues is determined by the result: chunk then choke for a
    value, error then choke for an error, choke alone for the empty
    result, nothing while unassigned.  So it is where [flush] fires: in
    [write], [abort] and [close] on an unassigned result, and in [attach]
    of [u] on a settled one. *)
Theorem terminal_delivery_mapping s u :
  upstream s = Some u ->
  flush s =
    match result s with
    | value_type v => [(u, send_chunk v); (u, seal_choke)]
    | error_type c m => [(u, send_error c m); (u, seal_choke)]
    | empty_type => [(u, seal_choke)]
    | unassigned => []
    end
  /\ (result s = unassigned ->
        forall v c m,
          snd (write v s) = [(u, send_chunk v); (u, seal_choke)]
          /\ snd (abort c m s) = [(u, send_error c m); (u, seal_choke)]
          /\ snd (close s) = [(u, seal_choke)])
  /\ (result s <> unassigned -> snd (attach (Some u) s) = flush s).
Proof.
  intros Hu. split; [|split].
  - unfold flush. rewrite Hu. destruct (result s); reflexivity.
  - intros Hr v c m. unfold write, abort, close, flush.
    rewrite Hr. simpl. rewrite Hu. repeat split.
  - intros Hr. apply is_unassigned_false in Hr.
    unfold attach, flush. simpl. now rewrite Hr, Hu.
Qed.

(** C2, flush exactly once.  Take any history with exactly one [attach],
    of an upstream [u], and any producer calls before and after it.  Then
    the producer calls before the attach issue nothing; the attach issues
    the terminal sequence if a producer call came first and nothing
    otherwise; and the whole history issues, on [u] and on nothing else,
    exactly the terminal sequence of the first producer call, once -- one
    [seal] in all when there is a producer call. *)
Theorem flush_exactly_once (before after : list (op T U)) u :
  no_attach before -> no_attach after ->
  let r := first_terminal (before ++ after) in
  let at_attach := fst (run before new_state) in
  run (before ++ op_attach (Some u) :: after) new_state
    = (mk_state r (Some u), result_visitor_t u r)
  /\ (r <> unassigned -> seals (result_visitor_t u r) = 1%nat)
  /\ snd (run before new_state) = []
  /\ (result at_attach = unassigned ->
        snd (attach (Some u) at_attach) = []
        /\ snd (run after (fst (attach (Some u) at_attach)))
           = result_visitor_t u r)
  /\ (result at_attach <> unassigned ->
        snd (attach (Some u) at_attach) = result_visitor_t u r
        /\ snd (run after (fst (attach (Some u) at_attach))) = []).
Proof.
  intros Hb Ha r at_attach.
  assert (Eb : run before (@new_state T U)
               = (mk_state (first_terminal before) None, [])).
  { rewrite run_producers by exact Hb. reflexivity. }
  assert (Er : r = settle (first_terminal before) after).
  { unfold r. now apply first_terminal_app. }
  assert (Eat : at_attach = mk_state (first_terminal before) None).
  { unfold at_attach. now rewrite Eb. }
  assert (Hattach : attach (Some u) at_attach
            = (mk_state (first_terminal before) (Some u),
               result_visitor_t u (first_terminal before))).
  { rewrite Eat. unfold attach. simpl.
    destruct (first_terminal before); reflexivity. }
  assert (Hafter : run after (mk_state (first_terminal before) (Some u))
            = (mk_state r (Some u),
               if is_unassigned (first_terminal before)
               then result_visitor_t u (first_terminal after) else [])).
  { rewrite run_producers by exact Ha. simpl. now rewrite Er. }
  repeat split.
  - rewrite run_app, run_cons. fold at_attach. simpl step.
    rewrite Eb, Hattach. simpl fst. simpl snd. rewrite Hafter. simpl.
    f_equal. rewrite Er. unfold settle.
    destruct (is_unassigned (first_terminal before)) eqn:E.
    + apply is_unassigned_true in E. now rewrite E.
    + now rewrite app_nil_r.
  - apply seals_visitor.
  - now rewrite Eb.
  - rewrite Hattach. simpl. rewrite Eat in H. simpl in H. now rewrite H.
  - rewrite Hattach. simpl fst. rewrite Hafter. simpl.
    rewrite Eat in H. simpl in H. rewrite Er. unfold settle.
    now rewrite H.
  - rewrite Hattach. simpl. rewrite Eat in H. simpl in H.
    apply is_unassigned_false in H. rewrite Er. unfold settle.
    now rewrite H.
  - rewrite Hattach. simpl fst. rewrite Hafter. simpl.
    rewrite Eat in H. simpl in H.
    apply is_unassigned_false in H. now rewrite H.
Qed.

(** C10, re-attach redelivery.  Every [attach] stores the pointer it is
    given, whatever was stored before, and leaves the result alone; when
    the result is not unassigned it issues the full terminal sequence on
    the upstream just attached; so attaching upstreams one after another
    to a settled state issues the terminal sequence once per attach, each
    on its own upstream. *)
Theorem reattach_redelivers :
  (forall s (p : option U),
     upstream (fst (attach p s)) = p /\ result (fst (attach p s)) = result s)
  /\ (forall s u, result s <> unassigned ->
        snd (attach (Some u) s) = result_visitor_t u (result s)
        /\ seals (snd (attach (Some u) s)) = 1%nat)
  /\ (forall s (us : list U), result s <> unassigned ->
        snd (run (map (fun u => op_attach (Some u)) us) s)
        = flat_map (fun u => result_visitor_t u (result s)) us).
Proof.
  assert (A : forall s u, result s <> unassigned ->
            attach (Some u) s
            = (mk_state (result s) (Some u), result_visitor_t u (result s))).
  { intros s u H. apply is_unassigned_false in H.
    unfold attach. simpl. now rewrite H. }
  split; [|split].
  - intros s p. unfold attach. simpl.
    destruct (negb (is_unassigned (result s))); split; reflexivity.
  - intros s u H. rewrite A by exact H. simpl. split; [reflexivity|].
    now apply seals_visitor.
  - intros s us. revert s.
    induction us as [|u us IH]; intros s H; [reflexivity|].
    cbn [map flat_map]. rewrite run_cons. cbn [step].
    rewrite A by exact H. simpl fst. simpl snd.
    rewrite IH by exact H. reflexivity.
Qed.

(** C3, the slot and handler failures.  For every outcome of the handler
    call that is a normal return or an exception derived from
    [std::exception], [operator()] returns normally with a null
    continuation dispatch; a [std::system_error] is reported as
    [error(code().value(), code().message())] followed by [choke], any
    other [std::exception] as [error(invocation_error, what())] followed
    by [choke], both directly on the upstream; after a normal return of
    the handler the upstream is the one attached to the returned
    deferred; so on exit the upstream is attached to a deferred or
    sealed. *)
Theorem slot_handles_std_exceptions
    (dispatch_t : Type) (invocation_error : Z) (c : called T U) u :
  anticipated c = true ->
  let r := deferred_slot dispatch_t invocation_error c u in
  slot_end r = exit_return None
  /\ (forall value message what,
        c = threw (std_system_error value message what) ->
        slot_state r = None
        /\ slot_out r = [(u, send_error value message); (u, seal_choke)])
  /\ (forall what,
        c = threw (std_exception what) ->
        slot_state r = None
        /\ slot_out r = [(u, send_error invocation_error what); (u, seal_choke)])
  /\ (forall s,
        c = returned s ->
        slot_state r = Some (fst (attach (Some u) s))
        /\ slot_out r = snd (attach (Some u) s))
  /\ (attached_to r u \/ sealed r u).
Proof.
  intros Hc r. unfold r.
  destruct c as [s | [value message what | what | ]]; simpl in Hc;
    try discriminate; simpl.
  - (* the handler returned a deferred *)
    destruct (attach (Some u) s) as [s' out] eqn:E. simpl.
    split; [reflexivity|]. split; [discriminate|]. split; [discriminate|].
    split.
    + intros s0 Hs. injection Hs as <-. now rewrite E.
    + left. exists s'. split; [reflexivity|].
      unfold attach in E. simpl in E.
      destruct (negb (is_unassigned (result s))); injection E as <- _;
        reflexivity.
  - (* std::system_error *)
    split; [reflexivity|]. split; [|split; [discriminate|split; [discriminate|]]].
    + intros v m w Hs. injection Hs as <- <- _. split; reflexivity.
    + right. exists [(u, send_error value message)]. reflexivity.
  - (* std::exception *)
    split; [reflexivity|]. split; [discriminate|]. split; [|split; [discriminate|]].
    + intros w Hs. injection Hs as <-. split; reflexivity.
    + right. exists [(u, send_error invocation_error what)]. reflexivity.
Qed.

End Claims.

(** *** The scenarios of the specification, as instances *)

(** C1 at work (scenario S3): after [attach] and [abort(42, "nope")], a
    [write(1)] leaves the state as it was and issues nothing. *)
Lemma single_assignment_witness :
  let s := fst (run [op_attach (Some 1%nat); op_abort 42 "nope"]
                    (@new_state Z nat)) in
  result s = error_type 42 "nope"
  /\ step (op_write 1) s = (s, []).
Proof.
  split; [reflexivity|].
  apply (proj1 (proj2 (@single_assignment Z nat))); [reflexivity|discriminate].
Defined.

(** C4 at work: the three terminal results with upstream [1] attached. *)
Lemma terminal_delivery_mapping_witness :
  flush (mk_state (value_type 7) (Some 1%nat))
  = [(1%nat, send_chunk 7); (1%nat, seal_choke)]
  /\ flush (mk_state (@error_type Z 42 "nope") (Some 1%nat))
     = [(1%nat, send_error 42 "nope"); (1%nat, seal_choke)]
  /\ flush (mk_state (@empty_type Empty_set) (Some 1%nat))
     = [(1%nat, seal_choke)].
Proof.
  split; [|split].
  - exact (proj1 (terminal_delivery_mapping
                    (mk_state (value_type 7) (Some 1%nat)) 1%nat eq_refl)).
  - exact (proj1 (terminal_delivery_mapping
                    (mk_state (@error_type Z 42 "nope") (Some 1%nat)) 1%nat
                    eq_refl)).
  - exact (proj1 (terminal_delivery_mapping
                    (mk_state (@empty_type Empty_set) (Some 1%nat)) 1%nat
                    eq_refl)).
Defined.

(** C2 at work (scenarios S1 and S2 in one history): a [write(7)] before
    the attach and a [write(1)] and an [abort] after it deliver
    [chunk(7)], [choke] once. *)
Lemma flush_exactly_once_witness :
  no_attach [@op_write Z nat 7]
  /\ no_attach [@op_write Z nat 1; op_abort 42 "nope"]
  /\ run ([op_write 7] ++ op_attach (Some 1%nat)
                       :: [op_write 1; op_abort 42 "nope"]) new_state
     = (mk_state (value_type 7) (Some 1%nat),
        [(1%nat, send_chunk 7); (1%nat, seal_choke)]).
Proof.
  split; [reflexivity|split; [reflexivity|]].
  exact (proj1 (flush_exactly_once
                  [op_write 7] [op_write 1; op_abort 42 "nope"] 1%nat
                  eq_refl eq_refl)).
Defined.

(** C10 at work: a deferred closed before two upstreams are attached in
    turn seals both. *)
Lemma reattach_redelivers_witness :
  snd (run [op_close; op_attach (Some 1%nat); op_attach (Some 2%nat)]
           (@new_state Empty_set nat))
  = [(1%nat, seal_choke); (2%nat, seal_choke)].
Proof.
  exact (proj2 (proj2 (@reattach_redelivers Empty_set nat))
           (mk_state empty_type None) [1%nat; 2%nat]
           ltac:(discriminate)).
Defined.

(** C3 at work (scenario S5): a handler that throws a plain exception
    with [what() = "boom"]; the error code is a stand-in. *)
Lemma slot_handles_std_exceptions_witness :
  let r := deferred_slot unit 1 (@threw Z nat (std_exception "boom")) 5%nat in
  slot_end r = exit_return None
  /\ slot_out r = [(5%nat, send_error 1 "boom"); (5%nat, seal_choke)].
Proof.
  pose proof (@slot_handles_std_exceptions Z nat unit 1
                (threw (std_exception "boom")) 5%nat eq_refl) as H.
  cbv zeta in H. destruct H as (H1 & _ & H3 & _).
  split; [exact H1|]. exact (proj2 (H3 "boom" eq_refl)).
Defined.

(** C3 as stated fails: a handler may throw an object that is not a
    [std::exception]; no catch clause matches it and it leaves
    [operator()]. *)
Lemma slot_lets_foreign_objects_through :
  slot_end (deferred_slot unit 1 (@threw Z nat foreign_object) 5%nat)
  = exit_unwind foreign_object
  /\ ~ (forall c : called Z nat,
          slot_end (deferred_slot unit 1 c 5%nat) = exit_return None).
Proof.
  split; [reflexivity|].
  intros H. specialize (H (threw foreign_object)). discriminate H.
Qed.

End DeferredFacts.

(** ** The socket wrapper and the channel *)

Module LinesFacts.

Import Lines.

(** *** Strings *)

Lemma find_last_of_absent (c : ascii) (s : string) :
  occurs c s = false -> find_last_of s c = None.
Proof.
  induction s as [|a s IH]; simpl; intros H; [reflexivity|].
  apply orb_false_iff in H as [Ha Hs].
  rewrite IH by exact Hs. now rewrite Ha.
Qed.

Lemma find_last_of_last (c : ascii) (before after : string) :
  occurs c after = false ->
  find_last_of (before ++ String c after) c = Some (String.length before).
Proof.
  intros H. induction before as [|a before IH]; simpl.
  - rewrite find_last_of_absent by exact H. now rewrite Ascii.eqb_refl.
  - now rewrite IH.
Qed.

Lemma substr_app (before rest : string) :
  substr (before ++ rest) (String.length before) = rest.
Proof.
  induction before as [|a before IH]; simpl; [now destruct rest|exact IH].
Qed.

(** *** Buffers *)

Lemma memcpy_rebuild (buffer : list byte) :
  memcpy (rebuild (List.length buffer)) buffer (List.length buffer) = buffer.
Proof.
  unfold memcpy, rebuild.
  rewrite firstn_all, skipn_all2, app_nil_r; [reflexivity|].
  rewrite repeat_length. apply Nat.le_refl.
Qed.

Lemma raw_pack_bytes (object : string) :
  raw_pack object = list_byte_of_string object.
Proof. unfold raw_pack. apply memcpy_rebuild. Qed.

Section Facts.

Context {zmq_socket : Type}.
Context (zmq_send : message_t -> Z -> zmq_socket -> outcome bool * zmq_socket).
Context (zmq_recv : Z -> zmq_socket -> outcome (option message_t) * zmq_socket).
Context (zmq_bind : string -> zmq_socket -> outcome unit * zmq_socket).
Context (hostname : string).

Implicit Types (w : world zmq_socket) (flags : Z) (message : message_t).

(** [socket_t::send], case by case on what the transport does. *)
Lemma send_cases message flags w :
  send zmq_send message flags w =
  match zmq_send message flags (m_socket (self w)) with
  | (ok sent, z) =>
      (ok sent,
       mk_world (moved_to z w) (logged w)
                (frames w ++ [mk_frame message flags sent]))
  | (raised what, z) =>
      (ok false,
       mk_world (moved_to z w)
                (logged w ++ [(LOG_ERR, format_net "send" what)])
                (frames w ++ [mk_frame message flags false]))
  end.
Proof.
  unfold send, then_, try_catch, on_socket, record_frame, syslog, ret, moved_to.
  destruct (zmq_send message flags (m_socket (self w))) as [[sent|what] z];
    reflexivity.
Qed.

(** [socket_t::recv], case by case on what the transport does. *)
Lemma recv_cases message flags w :
  recv zmq_recv message flags w =
  match zmq_recv flags (m_socket (self w)) with
  | (ok (Some m), z) =>
      (ok (true, m), mk_world (moved_to z w) (logged w) (frames w))
  | (ok None, z) =>
      (ok (false, message), mk_world (moved_to z w) (logged w) (frames w))
  | (raised what, z) =>
      (ok (false, message),
       mk_world (moved_to z w)
                (logged w ++ [(LOG_ERR, format_net "recv" what)])
                (frames w))
  end.
Proof.
  unfold recv, then_, try_catch, on_socket, syslog, ret, moved_to.
  destruct (zmq_recv flags (m_socket (self w))) as [[[m|]|what] z];
    reflexivity.
Qed.

(** Every call of [socket_t::send] returns and leaves one frame. *)
Lemma send_frame message flags w :
  exists sent w',
    send zmq_send message flags w = (ok sent, w')
    /\ frames w' = frames w ++ [mk_frame message flags sent].
Proof.
  rewrite send_cases.
  destruct (zmq_send message flags (m_socket (self w))) as [[sent|what] z];
    eexists; eexists; split; reflexivity.
Qed.

Lemma send_head_frame (e : element) flags w :
  exists sent w',
    send_head zmq_send e flags w = (ok sent, w')
    /\ frames w' = frames w ++ [mk_frame (message_of e) flags sent].
Proof.
  destruct e as [A pack value|object]; simpl.
  - unfold send_value. rewrite memcpy_rebuild. apply send_frame.
  - unfold send_raw. rewrite raw_pack_bytes. apply send_frame.
Qed.

(** An exception of the transport's bind leaves [socket_t::bind], and
    [m_endpoint] is what it was. *)
Lemma bind_propagates (endpoint what : string) (z : zmq_socket) w :
  zmq_bind (c_str endpoint) (m_socket (self w)) = (raised what, z) ->
  bind zmq_bind hostname endpoint w
  = (raised what, mk_world (moved_to z w) (logged w) (frames w)).
Proof.
  intros H. unfold bind, then_, on_socket. rewrite H. reflexivity.
Qed.

(** What [channel_t::recv<T>] makes of a frame the transport delivers. *)
Lemma recv_value_delivered {A : Type}
    (unpack : message_t -> A -> A * option string)
    (result : A) flags w (m : message_t) (z : zmq_socket) :
  zmq_recv flags (m_socket (self w)) = (ok (Some m), z) ->
  recv_value zmq_recv unpack result flags w =
  match unpack m result with
  | (result', Some what) =>
      (ok (false, result'),
       mk_world (moved_to z w)
                (logged w ++ [(LOG_ERR, format_corrupted "recv" what)])
                (frames w))
  | (result', None) =>
      (ok (true, result'), mk_world (moved_to z w) (logged w) (frames w))
  end.
Proof.
  intros Hz. unfold recv_value, then_. rewrite recv_cases, Hz. simpl.
  destruct (unpack m result) as [result' [what|]]; reflexivity.
Qed.

Lemma plan_cons (e e' : element) (o : list element) flags :
  plan (e :: e' :: o) flags
  = (message_of e, Z.lor ZMQ_SNDMORE flags) :: plan (e' :: o) flags.
Proof. reflexivity. Qed.

Lemma plan_length (o : list element) flags :
  o <> [] -> List.length (plan o flags) = List.length o.
Proof.
  intros H. unfold plan. rewrite length_app, length_map. simpl.
  destruct (exists_last H) as (o' & e & ->).
  rewrite removelast_last, length_app. reflexivity.
Qed.

Lemma more_follows_set flags : more_follows (Z.lor ZMQ_SNDMORE flags) = true.
Proof. unfold more_follows. rewrite Z.lor_spec. reflexivity. Qed.

End Facts.

Section Claims.

Context {zmq_socket : Type}.
Context (zmq_send : message_t -> Z -> zmq_socket -> outcome bool * zmq_socket).
Context (zmq_recv : Z -> zmq_socket -> outcome (option message_t) * zmq_socket).
Context (zmq_bind : string -> zmq_socket -> outcome unit * zmq_socket).
Context (hostname : string).

Implicit Types (w : world zmq_socket) (flags : Z) (message : message_t).

(** C5, endpoint advertising.  An endpoint whose last colon is followed
    by [after] is advertised as the configured hostname followed by that
    colon and [after]; every endpoint that contains a colon is of that
    form; an endpoint without a colon is advertised as ["<local>"]; and
    when the transport's bind returns, [bind] stores the advertised string
    in [m_endpoint]. *)
Theorem endpoint_advertising :
  (forall before after,
     occurs ":" after = false ->
     advertised hostname (before ++ String ":" after)
     = (hostname ++ String ":" after)%string)
  /\ (forall endpoint,
        occurs ":" endpoint = true ->
        exists before after,
          endpoint = (before ++ String ":" after)%string
          /\ occurs ":" after = false)
  /\ (forall endpoint,
        occurs ":" endpoint = false -> advertised hostname endpoint = "<local>")
  /\ (forall endpoint w z,
        zmq_bind (c_str endpoint) (m_socket (self w)) = (ok tt, z) ->
        bind zmq_bind hostname endpoint w
        = (ok tt,
           mk_world (mk_socket z (advertised hostname endpoint) (m_route (self w)))
                    (logged w) (frames w))).
Proof.
  split; [|split; [|split]].
  - intros before after H. unfold advertised.
    rewrite find_last_of_last by exact H. now rewrite substr_app.
  - induction endpoint as [|a rest IH]; simpl; intros H; [discriminate|].
    destruct (occurs ":" rest) eqn:E.
    + destruct (IH eq_refl) as (before & after & -> & Ha).
      exists (String a before), after. split; [reflexivity|exact Ha].
    + rewrite orb_false_r in H. apply Ascii.eqb_eq in H. subst a.
      exists EmptyString, rest. split; [reflexivity|exact E].
  - intros endpoint H. unfold advertised.
    now rewrite find_last_of_absent by exact H.
  - intros endpoint w z H.
    unfold bind, then_, on_socket, set_endpoint. rewrite H. reflexivity.
Qed.

(** C6, send and recv do not throw.  Whatever the message, the flags and
    the transport: [socket_t::send] and [socket_t::recv] return; when the
    transport throws, they return false, having written one line to
    syslog at [LOG_ERR] that names the function and gives the reason;
    when it returns, they return what it returned and log nothing. *)
Theorem send_recv_never_throw :
  (forall message flags w,
     match zmq_send message flags (m_socket (self w)) with
     | (ok sent, _) =>
         fst (send zmq_send message flags w) = ok sent
         /\ logged (snd (send zmq_send message flags w)) = logged w
     | (raised what, _) =>
         fst (send zmq_send message flags w) = ok false
         /\ logged (snd (send zmq_send message flags w))
            = logged w ++ [(LOG_ERR, ("net: [send()] " ++ what)%string)]
     end)
  /\ (forall message flags w,
        match zmq_recv flags (m_socket (self w)) with
        | (ok (Some m), _) =>
            fst (recv zmq_recv message flags w) = ok (true, m)
            /\ logged (snd (recv zmq_recv message flags w)) = logged w
        | (ok None, _) =>
            fst (recv zmq_recv message flags w) = ok (false, message)
            /\ logged (snd (recv zmq_recv message flags w)) = logged w
        | (raised what, _) =>
            fst (recv zmq_recv message flags w) = ok (false, message)
            /\ logged (snd (recv zmq_recv message flags w))
               = logged w ++ [(LOG_ERR, ("net: [recv()] " ++ what)%string)]
        end)
  /\ (forall message flags w,
        (exists sent, fst (send zmq_send message flags w) = ok sent)
        /\ (exists r, fst (recv zmq_recv message flags w) = ok r)).
Proof.
  split; [|split].
  - intros message flags w. rewrite send_cases.
    destruct (zmq_send message flags (m_socket (self w))) as [[sent|what] z];
      split; reflexivity.
  - intros message flags w. rewrite recv_cases.
    destruct (zmq_recv flags (m_socket (self w))) as [[[m|]|what] z];
      split; reflexivity.
  - intros message flags w. rewrite send_cases, recv_cases. split.
    + destruct (zmq_send message flags (m_socket (self w))) as [[sent|what] z];
        eexists; reflexivity.
    + destruct (zmq_recv flags (m_socket (self w))) as [[[m|]|what] z];
        eexists; reflexivity.
Qed.

(** Sending a tuple with any caller flags.  For a tuple of at least one
    element, [send_multi] returns, and the frames it hands to the
    transport are an initial part of the plan: every element but the last
    with [ZMQ_SNDMORE] or-ed into the caller's flags (so with the
    more-follows bit set), the last with exactly the caller's flags.  It
    returns true exactly when all these sends succeeded, and then every
    element was sent; when it returns false the failed send is the last
    one made, all before it having succeeded. *)
Theorem send_multi_frames (o : list element) flags w :
  o <> [] ->
  exists sent w' made,
    send_multi zmq_send o flags w = (ok sent, w')
    /\ frames w' = frames w ++ made
    /\ map as_sent made = firstn (List.length made) (plan o flags)
    /\ sent = forallb frame_sent made
    /\ (sent = true -> List.length made = List.length o)
    /\ (sent = false ->
        exists init failed,
          made = init ++ [failed]
          /\ forallb frame_sent init = true
          /\ frame_sent failed = false)
    /\ more_follows (Z.lor ZMQ_SNDMORE flags) = true.
Proof.
  revert w. induction o as [|e o IH]; intros w Hne; [contradiction|].
  destruct o as [|e' o].
  - cbn [send_multi].
    destruct (send_head_frame zmq_send e flags w) as (sent & w' & Hs & Hf).
    exists sent, w', [mk_frame (message_of e) flags sent].
    repeat split; try assumption.
    + simpl. now rewrite andb_true_r.
    + intros ->. exists [], (mk_frame (message_of e) flags false).
      repeat split.
    + apply more_follows_set.
  - change (send_multi zmq_send (e :: e' :: o) flags w)
      with (then_ (send_head zmq_send e (Z.lor ZMQ_SNDMORE flags))
              (fun sent => if sent then send_multi zmq_send (e' :: o) flags
                           else ret false) w).
    unfold then_.
    destruct (send_head_frame zmq_send e (Z.lor ZMQ_SNDMORE flags) w)
      as (b & w1 & Hs & Hf).
    rewrite Hs. destruct b.
    + destruct (IH w1) as (sent & w' & made & H1 & H2 & H3 & H4 & H5 & H6 & H7);
        [discriminate|].
      exists sent, w',
        (mk_frame (message_of e) (Z.lor ZMQ_SNDMORE flags) true :: made).
      rewrite plan_cons.
      split; [exact H1|]. split; [rewrite H2, Hf, <- app_assoc; reflexivity|].
      split; [cbn [map List.length firstn as_sent frame_data frame_flags];
              now rewrite H3|].
      split; [exact H4|]. split; [intros Ht; simpl; now rewrite H5|].
      split; [|exact H7].
      intros Hfalse. destruct (H6 Hfalse) as (init & failed & -> & Hi & Hl).
      exists (mk_frame (message_of e) (Z.lor ZMQ_SNDMORE flags) true :: init),
        failed.
      repeat split; assumption.
    + exists false, w1,
        [mk_frame (message_of e) (Z.lor ZMQ_SNDMORE flags) false].
      rewrite plan_cons.
      repeat split; try assumption; try discriminate.
      * exists [], (mk_frame (message_of e) (Z.lor ZMQ_SNDMORE flags) false).
        repeat split.
      * apply more_follows_set.
Qed.

(** C7, sending a tuple.  For every tuple of at least one element sent
    with the default flags, [send_multi(o)], the frames handed to the
    transport are an initial part of: every element but the last with
    [ZMQ_SNDMORE], which has the more-follows bit set, then the last
    element with flags 0, which has not.  [send_multi] returns true
    exactly when all these sends succeeded, and then every element was
    sent; when it returns false the failed send is the last one made, all
    before it having succeeded, so no later element is attempted. *)
Theorem send_tuple_frames (o : list element) w :
  o <> [] ->
  exists sent w' made,
    send_multi zmq_send o 0 w = (ok sent, w')
    /\ frames w' = frames w ++ made
    /\ map as_sent made
       = firstn (List.length made)
           (map (fun e => (message_of e, ZMQ_SNDMORE)) (removelast o)
            ++ [(message_of (last o (elem_raw "")), 0)])
    /\ more_follows ZMQ_SNDMORE = true
    /\ more_follows 0 = false
    /\ sent = forallb frame_sent made
    /\ (sent = true -> List.length made = List.length o)
    /\ (sent = false ->
        exists init failed,
          made = init ++ [failed]
          /\ forallb frame_sent init = true
          /\ frame_sent failed = false).
Proof.
  intros Hne.
  destruct (send_multi_frames o 0 w Hne)
    as (sent & w' & made & H1 & H2 & H3 & H4 & H5 & H6 & _).
  exists sent, w', made.
  split; [exact H1|]. split; [exact H2|]. split; [exact H3|].
  split; [reflexivity|]. split; [reflexivity|].
  split; [exact H4|]. split; [exact H5|exact H6].
Qed.

(** The channel adds nothing to the codec.  Let [v] be a value the
    codec represents: unpacking what [pack] wrote for it gives [v] back.
    Then a typed send of [v] returns, handing the transport one frame
    whose bytes are exactly the packed buffer, and a typed receive to
    which the transport delivers that frame returns true with [v] in the
    result, logging nothing. *)
Theorem codec_round_trip {A : Type} (pack : A -> list byte)
    (unpack : message_t -> A -> A * option string) (v : A) :
  decodes_to unpack (pack v) v ->
  (forall flags w,
     exists sent w',
       send_value zmq_send pack v flags w = (ok sent, w')
       /\ frames w' = frames w ++ [mk_frame (pack v) flags sent])
  /\ (forall flags w z result,
        zmq_recv flags (m_socket (self w)) = (ok (Some (pack v)), z) ->
        recv_value zmq_recv unpack result flags w
        = (ok (true, v), mk_world (moved_to z w) (logged w) (frames w))).
Proof.
  intros Hv. split.
  - intros flags w. unfold send_value. rewrite memcpy_rebuild.
    apply send_frame.
  - intros flags w z result Hz.
    rewrite (recv_value_delivered zmq_recv unpack result flags w (pack v) z Hz).
    now rewrite (Hv result).
Qed.

End Claims.

(** *** Instances on the loopback transport *)

Import Doubles.

(** C5 at work: a TCP endpoint keeps its port, the scheme and the
    wildcard address are replaced by the hostname. *)
Lemma endpoint_advertising_witness :
  advertised "node1" "tcp://*:5000" = "node1:5000"
  /\ advertised "node1" "inproc" = "<local>".
Proof.
  split.
  - exact (proj1 (endpoint_advertising lo_bind "node1") "tcp://*" "5000" eq_refl).
  - exact (proj1 (proj2 (proj2 (endpoint_advertising lo_bind "node1")))
             "inproc" eq_refl).
Defined.

(** C6 at work: on a transport that throws, [send] returns false and
    logs the reason. *)
Lemma send_recv_never_throw_witness :
  let w := fresh (mk_loopback [] [] (Some "Context was terminated")) in
  fst (send lo_send [x41] 0 w) = ok false
  /\ logged (snd (send lo_send [x41] 0 w))
     = [(LOG_ERR, "net: [send()] Context was terminated")].
Proof.
  exact (proj1 (send_recv_never_throw lo_send lo_recv) [x41] 0
           (fresh (mk_loopback [] [] (Some "Context was terminated")))).
Defined.

(** Scenario S6: three raw strings leave as three frames, the first two
    flagged [ZMQ_SNDMORE]. *)
Example send_multi_three :
  send_multi lo_send [elem_raw "A"; elem_raw "B"; elem_raw "C"] 0 (fresh idle)
  = (ok true,
     mk_world (mk_socket (mk_loopback [] [[x41]; [x42]; [x43]] None) "" "") []
       [mk_frame [x41] 2 true; mk_frame [x42] 2 true; mk_frame [x43] 0 true]).
Proof. vm_compute. reflexivity. Qed.

(** When the second send fails, the third element is not attempted. *)
Example send_multi_truncated :
  send_multi lo_send [elem_raw "A"; elem_raw "B"; elem_raw "C"] 0
    (fresh (mk_loopback [ok true; ok false] [] None))
  = (ok false,
     mk_world (mk_socket (mk_loopback [] [[x41]] None) "" "") []
       [mk_frame [x41] 2 true; mk_frame [x42] 2 false]).
Proof. vm_compute. reflexivity. Qed.

(** The general statement on the tuple of scenario S6. *)
Lemma send_multi_frames_witness :
  exists sent w' made,
    send_multi lo_send [elem_raw "A"; elem_raw "B"; elem_raw "C"] 0 (fresh idle)
    = (ok sent, w')
    /\ frames w' = frames (fresh idle) ++ made
    /\ map as_sent made
       = firstn (List.length made)
           (plan [elem_raw "A"; elem_raw "B"; elem_raw "C"] 0)
    /\ sent = forallb frame_sent made
    /\ (sent = true -> List.length made = 3%nat)
    /\ (sent = false ->
        exists init failed,
          made = init ++ [failed]
          /\ forallb frame_sent init = true
          /\ frame_sent failed = false)
    /\ more_follows (Z.lor ZMQ_SNDMORE 0) = true.
Proof.
  exact (send_multi_frames lo_send
           [elem_raw "A"; elem_raw "B"; elem_raw "C"] 0 (fresh idle)
           ltac:(discriminate)).
Defined.

(** With flags of the caller's own: the last element goes out with
    them, so a caller that passes [ZMQ_SNDMORE] gets it on the last
    element too. *)
Lemma send_multi_last_keeps_caller_flags :
  send_multi lo_send [elem_raw "A"] ZMQ_SNDMORE (fresh idle)
  = (ok true,
     mk_world (mk_socket (mk_loopback [] [[x41]] None) "" "") []
       [mk_frame [x41] ZMQ_SNDMORE true])
  /\ more_follows ZMQ_SNDMORE = true.
Proof. split; vm_compute; reflexivity. Qed.

(** C7 at work (scenario S6): three raw strings, default flags. *)
Lemma send_tuple_frames_witness :
  exists sent w' made,
    send_multi lo_send [elem_raw "A"; elem_raw "B"; elem_raw "C"] 0 (fresh idle)
    = (ok sent, w')
    /\ frames w' = frames (fresh idle) ++ made
    /\ map as_sent made
       = firstn (List.length made)
           [([x41], ZMQ_SNDMORE); ([x42], ZMQ_SNDMORE); ([x43], 0)]
    /\ more_follows ZMQ_SNDMORE = true
    /\ more_follows 0 = false
    /\ sent = forallb frame_sent made
    /\ (sent = true -> List.length made = 3%nat)
    /\ (sent = false ->
        exists init failed,
          made = init ++ [failed]
          /\ forallb frame_sent init = true
          /\ frame_sent failed = false).
Proof.
  exact (send_tuple_frames lo_send
           [elem_raw "A"; elem_raw "B"; elem_raw "C"] (fresh idle)
           ltac:(discriminate)).
Defined.

Lemma pack_bool_decodes (b : bool) : decodes_to unpack_bool (pack_bool b) b.
Proof. intros result. destruct b; reflexivity. Qed.

(** On the loopback, what a typed send leaves is what the next typed
    receive decodes. *)
Lemma round_trip_over_loopback {A : Type} (pack : A -> list byte)
    (unpack : message_t -> A -> A * option string) (v result : A)
    (flags flags' : Z) :
  decodes_to unpack (pack v) v ->
  fst (recv_value lo_recv unpack result flags'
         (snd (send_value lo_send pack v flags (fresh idle))))
  = ok (true, v).
Proof.
  intros Hv. unfold send_value. rewrite memcpy_rebuild, send_cases. simpl.
  rewrite (recv_value_delivered lo_recv unpack result flags' _ (pack v) idle)
    by reflexivity.
  now rewrite (Hv result).
Qed.

(** A boolean sent and received over the loopback comes back. *)
Example bool_over_loopback :
  let sender := snd (send_value lo_send pack_bool true 0 (fresh idle)) in
  fst (recv_value lo_recv unpack_bool false 0 sender) = ok (true, true).
Proof. vm_compute. reflexivity. Qed.

(** The same for MessagePack's encoding of [true]. *)
Lemma codec_round_trip_witness :
  decodes_to unpack_bool (pack_bool true) true
  /\ recv_value lo_recv unpack_bool false 0
       (fresh (mk_loopback [] [pack_bool true] None))
     = (ok (true, true),
        mk_world (moved_to idle (fresh (mk_loopback [] [pack_bool true] None)))
                 [] []).
Proof.
  split; [apply pack_bool_decodes|].
  exact (proj2 (codec_round_trip lo_send lo_recv pack_bool unpack_bool true
                  (pack_bool_decodes true))
           0 (fresh (mk_loopback [] [pack_bool true] None)) idle false eq_refl).
Defined.

(** A raw string sent and received over the loopback comes back. *)
Example raw_over_loopback :
  let sender := snd (send_raw lo_send "ping" ZMQ_SNDMORE (fresh idle)) in
  fst (recv_raw lo_recv "" 0 sender) = ok (true, "ping").
Proof. vm_compute. reflexivity. Qed.

(** The raw string codec of these sources inverts itself. *)
Lemma raw_round_trip (object : string) :
  raw_unpack (raw_pack object) = (object, true).
Proof.
  unfold raw_unpack. rewrite raw_pack_bytes.
  now rewrite string_of_list_byte_of_string.
Qed.

End LinesFacts.

(** ** The driver base class *)

Module DriversFacts.

Import Drivers.

Section Claims.

Context {dict_t overseer_t source_t digest_t msgpack_socket_t : Type}.
Context (send_tuple : string * dict_t -> msgpack_socket_t -> bool * msgpack_socket_t).

Implicit Types (d : abstract_driver_t overseer_t source_t digest_t msgpack_socket_t).

Lemma empty_iff (s : string) : empty s = true <-> s = EmptyString.
Proof. destruct s; simpl; split; congruence. Qed.

(** C9, the publish guard.  [publish] hands the tuple [(m_id, dict)] to
    the pipe exactly when a pipe is set and the id is not empty; doing so
    changes nothing of the driver but the pipe, which becomes what
    [send_tuple] leaves; otherwise nothing is sent and the driver is as it
    was. *)
Theorem publish_guard (dict : dict_t) d :
  (snd (publish send_tuple dict d) = [(m_id d, dict)] <-> can_publish d)
  /\ (can_publish d ->
        exists pipe,
          m_pipe d = Some pipe
          /\ fst (publish send_tuple dict d)
             = mk_driver (m_id d) (m_parent d) (m_source d)
                 (Some (snd (send_tuple (m_id d, dict) pipe))) (m_digest d))
  /\ (~ can_publish d -> publish send_tuple dict d = (d, [])).
Proof.
  unfold can_publish, publish.
  destruct (m_pipe d) as [pipe|] eqn:Ep.
  - destruct (empty (m_id d)) eqn:Ee; simpl.
    + apply empty_iff in Ee. split; [|split].
      * split; [discriminate|]. intros [_ H]. contradiction.
      * intros [_ H]. contradiction.
      * reflexivity.
    + assert (Hid : m_id d <> EmptyString).
      { intros H. apply empty_iff in H. congruence. }
      destruct (send_tuple (m_id d, dict) pipe) as [sent pipe'] eqn:Es.
      simpl. split; [|split].
      * split; [|reflexivity]. intros _. split; [discriminate|exact Hid].
      * intros _. exists pipe. rewrite Es. split; reflexivity.
      * intros H. exfalso. apply H. split; [discriminate|exact Hid].
  - split; [|split].
    + split; [discriminate|]. intros [H _]. contradiction.
    + intros [H _]. contradiction.
    + reflexivity.
Qed.

End Claims.

(** C9 at work: a driver with a pipe and an id publishes; one without a
    pipe does not. *)
Lemma publish_guard_witness :
  snd (publish Doubles.keep_tuple 7%nat (mk_driver "timer" tt tt (Some []) tt))
  = [("timer", 7%nat)]
  /\ publish Doubles.keep_tuple 7%nat (mk_driver "timer" tt tt None tt)
     = (mk_driver "timer" tt tt None tt, []).
Proof.
  split.
  - apply (proj1 (publish_guard Doubles.keep_tuple 7%nat
                    (mk_driver "timer" tt tt (Some []) tt))).
    split; discriminate.
  - apply (proj2 (proj2 (publish_guard Doubles.keep_tuple 7%nat
                           (mk_driver "timer" tt tt None tt)))).
    intros [H _]. now apply H.
Defined.

End DriversFacts.

(** ** More on the deferred state and the slot *)

Module DeferredMore.

Import Deferred Handles DeferredFacts.

Section Facts.

Context {T U : Type}.

Implicit Types (s : future_state T U) (o : op T U) (ops : list (op T U)).
Implicit Types (r : result_type T) (u : U).

Lemma seals_app (a b : list (event T U)) : seals (a ++ b) = (seals a + seals b)%nat.
Proof.
  induction a as [|[u c] a IH]; [reflexivity|].
  destruct c; simpl; now rewrite IH.
Qed.

Lemma visitor_only_on u r : only_on u (result_visitor_t u r).
Proof. destruct r; repeat constructor. Qed.

Lemma flush_attached r u : flush (mk_state r (Some u)) = result_visitor_t u r.
Proof. reflexivity. Qed.

(** What one method issues is a terminal sequence of the result it
    leaves, on at most one upstream. *)
Lemma step_trace o s :
  exists us,
    snd (step o s)
    = flat_map (fun u => result_visitor_t u (result (fst (step o s)))) us
    /\ (us = [] \/ result (fst (step o s)) <> unassigned).
Proof.
  destruct (is_attach o) eqn:Ho.
  - destruct o as [| | |p]; try discriminate.
    unfold step, attach. simpl.
    destruct (is_unassigned (result s)) eqn:E; simpl.
    + exists []. split; [reflexivity|now left].
    + apply is_unassigned_false in E. destruct p as [u|].
      * exists [u]. simpl. rewrite app_nil_r. split; [reflexivity|now right].
      * exists []. split; [reflexivity|now left].
  - rewrite step_producer by exact Ho.
    destruct (is_unassigned (result s)) eqn:E.
    + apply is_unassigned_true in E. rewrite assign_fresh by exact E. simpl.
      destruct (upstream s) as [u|].
      * exists [u]. simpl. rewrite app_nil_r.
        split; [reflexivity|right; now apply arm_terminal].
      * exists []. split; [reflexivity|now left].
    + apply is_unassigned_false in E. rewrite assign_settled by exact E.
      exists []. split; [reflexivity|now left].
Qed.

Lemma run_trace ops s :
  exists us,
    snd (run ops s)
    = flat_map (fun u => result_visitor_t u (result (fst (run ops s)))) us.
Proof.
  revert s. induction ops as [|o ops IH]; intros s.
  - exists []. reflexivity.
  - destruct (step_trace o s) as (us1 & H1 & Hc).
    destruct (IH (fst (step o s))) as (us2 & H2).
    exists (us1 ++ us2). rewrite run_cons. simpl.
    rewrite flat_map_app, <- H2. f_equal.
    destruct Hc as [-> | Hr].
    + exact H1.
    + now rewrite run_keeps_result by exact Hr.
Qed.

Lemma run_silent ops s :
  result (fst (run ops s)) = unassigned -> snd (run ops s) = [].
Proof.
  intros H. destruct (run_trace ops s) as (us & ->). rewrite H.
  induction us as [|u us IH]; [reflexivity|exact IH].
Qed.

(** One attach among producer calls, from a fresh state. *)
Lemma run_single_attach (before after : list (op T U)) u :
  no_attach before -> no_attach after ->
  run (before ++ op_attach (Some u) :: after) new_state
  = (mk_state (first_terminal (before ++ after)) (Some u),
     result_visitor_t u (first_terminal (before ++ after))).
Proof.
  intros Hb Ha.
  assert (Eb : run before (@new_state T U)
               = (mk_state (first_terminal before) None, [])).
  { rewrite run_producers by exact Hb. reflexivity. }
  assert (Eat : attach (Some u) (mk_state (first_terminal before) None)
                = (mk_state (first_terminal before) (Some u),
                   result_visitor_t u (first_terminal before))).
  { unfold attach. simpl. destruct (first_terminal before); reflexivity. }
  rewrite run_app, run_cons, Eb. cbn [fst snd step]. rewrite Eat.
  cbn [fst snd]. rewrite (run_producers after) by exact Ha.
  cbn [fst snd result upstream app].
  rewrite first_terminal_app by exact Hb. unfold settle.
  destruct (is_unassigned (first_terminal before)) eqn:E.
  - apply is_unassigned_true in E. rewrite E. reflexivity.
  - now rewrite app_nil_r.
Qed.

Lemma two_per_seal r (us : list U) :
  r <> empty_type ->
  List.length (flat_map (fun u => result_visitor_t u r) us)
  = (2 * seals (flat_map (fun u => result_visitor_t u r) us))%nat.
Proof.
  intros Hr. induction us as [|u us IH]; [reflexivity|].
  cbn [flat_map]. rewrite length_app, seals_app, IH.
  destruct r; simpl; try reflexivity; try congruence;
    rewrite Nat.add_0_r, <- plus_n_Sm; reflexivity.
Qed.

Lemma handle_never_empties (h : list (deferred_event T U)) s :
  result s <> empty_type ->
  result (fst (run (map lower h) s)) <> empty_type.
Proof.
  revert s. induction h as [|e h IH]; intros s Hs; [exact Hs|].
  cbn [map]. rewrite run_cons. cbn [fst]. apply IH.
  destruct e as [[value|code reason]|p]; cbn [lower step].
  - unfold write. destruct (is_unassigned (result s)); [discriminate|exact Hs].
  - unfold abort. destruct (is_unassigned (result s)); [discriminate|exact Hs].
  - unfold attach. cbn [result].
    destruct (negb (is_unassigned (result s))); exact Hs.
Qed.

End Facts.

Section Properties.

Context {T U : Type}.

Implicit Types (s : future_state T U) (o : op T U) (ops : list (op T U)).
Implicit Types (r : result_type T) (u : U).

(** X1.  Whatever the history of calls on a state -- any number of
    attaches, null pointers included, and of producer calls, from any
    starting state -- everything issued on upstreams is a concatenation of
    complete terminal sequences of the one result the history ends with;
    in particular nothing at all is issued as long as the result is
    unassigned. *)
Theorem history_delivers_one_result ops s :
  (exists us,
     snd (run ops s)
     = flat_map (fun u => result_visitor_t u (result (fst (run ops s)))) us)
  /\ (result (fst (run ops s)) = unassigned -> snd (run ops s) = []).
Proof.
  split; [apply run_trace|apply run_silent].
Qed.

(** X2.  Only the pointer stored when the result is settled is served:
    if the result is still unassigned after [pre], whatever upstreams
    [pre] attached, then attaching [p] and making producer calls delivers
    the terminal sequence of the first of them on [p] alone -- and on
    nothing when [p] is null, the result being kept all the same. *)
Theorem last_pointer_receives (pre after : list (op T U)) (p : option U) s :
  result (fst (run pre s)) = unassigned ->
  no_attach after ->
  run (pre ++ op_attach p :: after) s
  = (mk_state (first_terminal after) p,
     match p with
     | Some u => result_visitor_t u (first_terminal after)
     | None => []
     end).
Proof.
  intros Hpre Ha.
  rewrite run_app, run_cons, (run_silent pre s Hpre).
  cbn [step app]. unfold attach. cbn [result]. rewrite Hpre.
  cbn [negb is_unassigned fst snd app].
  rewrite (run_producers after) by exact Ha.
  cbn [fst snd result upstream is_unassigned]. unfold settle.
  cbn [is_unassigned]. destruct p; reflexivity.
Qed.

(** X3.  Through a [deferred<T>] handle, which offers [write] and
    [abort] but no [close], the result never becomes the empty one, so
    every delivery consists of exactly two calls, a chunk or an error and
    then the choke: a history issues twice as many calls as seals. *)
Theorem deferred_delivers_pairs (h : list (deferred_event T U)) :
  result (fst (run (map lower h) new_state)) <> empty_type
  /\ List.length (snd (run (map lower h) new_state))
     = (2 * seals (snd (run (map lower h) new_state)))%nat.
Proof.
  assert (Hr : result (fst (run (map lower h) (@new_state T U))) <> empty_type).
  { apply handle_never_empties. discriminate. }
  split; [exact Hr|].
  destruct (run_trace (map lower h) (@new_state T U)) as (us & ->).
  now apply two_per_seal.
Qed.

(** X4.  A handler that returns a deferred, having made any producer
    calls on it before returning and making any after the slot has run:
    the slot attaches the caller's upstream, and over the whole exchange
    that upstream is issued exactly the terminal sequence of the first
    producer call, whether that call came before or after the slot. *)
Theorem slot_delivers_once (dispatch_t : Type) (invocation_error : Z)
    (before after : list (op T U)) u :
  no_attach before -> no_attach after ->
  let s0 := fst (run before new_state) in
  let r := deferred_slot dispatch_t invocation_error (returned s0) u in
  exists s1,
    slot_state r = Some s1
    /\ snd (run before new_state) ++ slot_out r ++ snd (run after s1)
       = result_visitor_t u (first_terminal (before ++ after))
    /\ fst (run after s1)
       = mk_state (first_terminal (before ++ after)) (Some u).
Proof.
  intros Hb Ha s0 r.
  pose proof (run_single_attach before after u Hb Ha) as H.
  rewrite run_app, run_cons in H. cbn [fst snd step] in H. fold s0 in H.
  unfold r, deferred_slot.
  destruct (attach (Some u) s0) as [s1 out] eqn:E. cbn [fst snd] in H.
  exists s1. cbn [slot_state slot_out].
  injection H as H1 H2. split; [reflexivity|]. split; [exact H2|].
  destruct (run after s1) as [s2 out2]. simpl in *. exact H1.
Qed.

(** X5.  Whatever the handler did -- returned a deferred in any state,
    attached elsewhere or not, or threw anything -- the slot issues calls
    on the caller's upstream only, seals it at most once, leaves the
    result of a returned deferred as it found it with the caller's
    upstream stored, and touches no deferred when the handler threw. *)
Theorem slot_touches_only_its_upstream (dispatch_t : Type)
    (invocation_error : Z) (c : called T U) u :
  let r := deferred_slot dispatch_t invocation_error c u in
  only_on u (slot_out r)
  /\ (seals (slot_out r) <= 1)%nat
  /\ (forall s, c = returned s ->
        exists s1, slot_state r = Some s1
                   /\ result s1 = result s /\ upstream s1 = Some u)
  /\ (forall e, c = threw e -> slot_state r = None).
Proof.
  intros r. unfold r.
  destruct c as [s | [value message what | what | ]]; cbn [deferred_slot].
  - unfold attach. cbn [result].
    destruct (is_unassigned (result s)) eqn:E; cbn [negb slot_out slot_state].
    + split; [constructor|]. split; [apply Nat.le_0_l|].
      split; [|discriminate].
      intros s0 Hs. injection Hs as <-. eexists. repeat split.
    + rewrite flush_attached. split; [apply visitor_only_on|].
      split.
      * destruct (result s); simpl; auto.
      * split; [|discriminate].
        intros s0 Hs. injection Hs as <-. eexists. repeat split.
  - cbn [slot_out slot_state]. split; [repeat constructor|].
    split; [apply Nat.le_refl|]. split; [discriminate|reflexivity].
  - cbn [slot_out slot_state]. split; [repeat constructor|].
    split; [apply Nat.le_refl|]. split; [discriminate|reflexivity].
  - cbn [slot_out slot_state]. split; [constructor|].
    split; [apply Nat.le_0_l|]. split; [discriminate|reflexivity].
Qed.

End Properties.

(** X2 at work: two upstreams attached in turn before [write(7)], the
    second one receives, the first nothing. *)
Lemma last_pointer_receives_witness :
  run ([op_attach (Some 1%nat)] ++ op_attach (Some 2%nat) :: [op_write 7])
      (@new_state Z nat)
  = (mk_state (value_type 7) (Some 2%nat),
     [(2%nat, send_chunk 7); (2%nat, seal_choke)]).
Proof.
  exact (last_pointer_receives [op_attach (Some 1%nat)] [op_write 7]
           (Some 2%nat) new_state eq_refl eq_refl).
Defined.

(** X4 at work: the handler aborts before returning and writes later. *)
Lemma slot_delivers_once_witness :
  exists s1,
    slot_state (deferred_slot unit 1
                  (returned (fst (run [op_abort 42 "nope"] (@new_state Z nat))))
                  5%nat)
    = Some s1
    /\ snd (run [op_abort 42 "nope"] (@new_state Z nat))
       ++ slot_out (deferred_slot unit 1
                      (returned (fst (run [op_abort 42 "nope"] new_state)))
                      5%nat)
       ++ snd (run [op_write 1] s1)
       = [(5%nat, send_error 42 "nope"); (5%nat, seal_choke)]
    /\ fst (run [op_write 1] s1)
       = mk_state (error_type 42 "nope") (Some 5%nat).
Proof.
  exact (slot_delivers_once unit 1 [op_abort 42 "nope"] [op_write 1] 5%nat
           eq_refl eq_refl).
Defined.

End DeferredMore.

(** ** More on the socket wrapper and the channel *)

Module LinesMore.

Import Lines Channel LinesFacts.

Section Facts.

Context {zmq_socket : Type}.
Context (zmq_send : message_t -> Z -> zmq_socket -> outcome bool * zmq_socket).
Context (zmq_recv : Z -> zmq_socket -> outcome (option message_t) * zmq_socket).
Context (zmq_bind : string -> zmq_socket -> outcome unit * zmq_socket).
Context (zmq_connect : string -> zmq_socket -> outcome unit * zmq_socket).
Context (zmq_more : zmq_socket -> outcome bool * zmq_socket).
Context (hostname : string).

Implicit Types (w : world zmq_socket) (flags : Z) (message : message_t).

(** [channel_t::recv<T>(raw<T>&, int)], case by case on the transport. *)
Lemma recv_raw_cases (result : string) flags w :
  recv_raw zmq_recv result flags w =
  match zmq_recv flags (m_socket (self w)) with
  | (ok (Some m), z) =>
      (ok (true, string_of_list_byte m),
       mk_world (moved_to z w) (logged w) (frames w))
  | (ok None, z) =>
      (ok (false, result), mk_world (moved_to z w) (logged w) (frames w))
  | (raised what, z) =>
      (ok (false, result),
       mk_world (moved_to z w)
                (logged w ++ [(LOG_ERR, format_net "recv" what)])
                (frames w))
  end.
Proof.
  unfold recv_raw, then_. rewrite recv_cases.
  destruct (zmq_recv flags (m_socket (self w))) as [[[m|]|what] z];
    reflexivity.
Qed.

(** [channel_t::recv<T>(T&, int)], case by case on the transport and on
    the decoder. *)
Lemma recv_value_cases {A : Type}
    (unpack : message_t -> A -> A * option string) (result : A) flags w :
  recv_value zmq_recv unpack result flags w =
  match zmq_recv flags (m_socket (self w)) with
  | (ok (Some m), z) =>
      match unpack m result with
      | (result', Some what) =>
          (ok (false, result'),
           mk_world (moved_to z w)
             (logged w ++ [(LOG_ERR, format_corrupted "recv" what)])
             (frames w))
      | (result', None) =>
          (ok (true, result'), mk_world (moved_to z w) (logged w) (frames w))
      end
  | (ok None, z) =>
      (ok (false, result), mk_world (moved_to z w) (logged w) (frames w))
  | (raised what, z) =>
      (ok (false, result),
       mk_world (moved_to z w)
                (logged w ++ [(LOG_ERR, format_net "recv" what)])
                (frames w))
  end.
Proof.
  unfold recv_value, then_. rewrite recv_cases.
  destruct (zmq_recv flags (m_socket (self w))) as [[[m|]|what] z];
    try reflexivity.
  simpl. destruct (unpack m result) as [result' [what|]]; reflexivity.
Qed.

(** Receiving one element returns, and only the transport state and the
    log can have changed. *)
Lemma recv_head_returns (t : target) flags w :
  exists received t' z lines,
    recv_head zmq_recv t flags w
    = (ok (received, t'),
       mk_world (moved_to z w) (logged w ++ lines) (frames w)).
Proof.
  destruct t as [A unpack result|result]; unfold recv_head, then_.
  - rewrite recv_value_cases.
    destruct (zmq_recv flags (m_socket (self w))) as [[[m|]|what] z].
    + destruct (unpack m result) as [result' [what|]]; simpl.
      * do 4 eexists. reflexivity.
      * exists true, (target_value unpack result'), z, [].
        now rewrite app_nil_r.
    + exists false, (target_value unpack result), z, [].
      simpl. now rewrite app_nil_r.
    + do 4 eexists. reflexivity.
  - rewrite recv_raw_cases.
    destruct (zmq_recv flags (m_socket (self w))) as [[[m|]|what] z]; simpl.
    + exists true, (target_raw (string_of_list_byte m)), z, [].
      now rewrite app_nil_r.
    + exists false, (target_raw result), z, []. now rewrite app_nil_r.
    + do 4 eexists. reflexivity.
Qed.

(** Sending one element: the socket's own members stay, one frame is
    added, and a line is logged only when the send is reported failed. *)
Lemma send_head_effect (e : element) flags w :
  exists sent w',
    send_head zmq_send e flags w = (ok sent, w')
    /\ m_endpoint (self w') = m_endpoint (self w)
    /\ m_route (self w') = m_route (self w)
    /\ List.length (frames w') = S (List.length (frames w))
    /\ (logged w' = logged w
        \/ (sent = false
            /\ exists what,
                 logged w' = logged w ++ [(LOG_ERR, format_net "send" what)])).
Proof.
  assert (H : forall message, exists sent w',
             send zmq_send message flags w = (ok sent, w')
             /\ m_endpoint (self w') = m_endpoint (self w)
             /\ m_route (self w') = m_route (self w)
             /\ List.length (frames w') = S (List.length (frames w))
             /\ (logged w' = logged w
                 \/ (sent = false
                     /\ exists what,
                          logged w'
                          = logged w ++ [(LOG_ERR, format_net "send" what)]))).
  { intros message. rewrite send_cases.
    destruct (zmq_send message flags (m_socket (self w))) as [[sent|what] z];
      eexists; eexists; (split; [reflexivity|]); simpl;
      rewrite length_app, Nat.add_1_r; repeat split; eauto. }
  destruct e as [A pack value|object]; simpl.
  - unfold send_value. apply H.
  - unfold send_raw. apply H.
Qed.

(** Receiving [o1] and then [tail] is receiving them as one tuple, as
    long as no element of [o1] fails. *)
Lemma recv_multi_app (o1 tail : list target) flags w (o1' : list target) w1
    (r : bool * list target) w2 :
  recv_multi zmq_recv o1 flags w = (ok (true, o1'), w1) ->
  recv_multi zmq_recv tail flags w1 = (ok r, w2) ->
  recv_multi zmq_recv (o1 ++ tail) flags w = (ok (fst r, o1' ++ snd r), w2).
Proof.
  revert w o1'. induction o1 as [|h o1 IH]; intros w o1' H Ht.
  - cbn in H. unfold ret in H. injection H as <- <-.
    simpl. rewrite Ht. now destruct r.
  - cbn [recv_multi app] in *. unfold then_ in *.
    destruct (recv_head_returns h flags w)
      as (received & h' & z & lines & Eh).
    rewrite Eh in *. destruct received; [|discriminate].
    destruct (recv_multi zmq_recv o1 flags _) as [[[b o1''] | what] w'] eqn:E;
      [|discriminate].
    unfold ret in H. cbn [fst snd] in H. injection H as -> <- <-.
    rewrite (IH _ o1'' E Ht). reflexivity.
Qed.

Lemma plan_raw_data (ss : list string) flags :
  ss <> [] ->
  map fst (plan (map elem_raw ss) flags) = map list_byte_of_string ss.
Proof.
  induction ss as [|a ss IH]; intros H; [contradiction|].
  destruct ss as [|b ss]; [reflexivity|].
  cbn [map]. rewrite plan_cons. cbn [map fst message_of]. f_equal.
  apply IH. discriminate.
Qed.

End Facts.

Section Properties.

Context {zmq_socket : Type}.
Context (zmq_send : message_t -> Z -> zmq_socket -> outcome bool * zmq_socket).
Context (zmq_recv : Z -> zmq_socket -> outcome (option message_t) * zmq_socket).
Context (zmq_bind : string -> zmq_socket -> outcome unit * zmq_socket).
Context (zmq_connect : string -> zmq_socket -> outcome unit * zmq_socket).
Context (zmq_more : zmq_socket -> outcome bool * zmq_socket).
Context (hostname : string).

Implicit Types (w : world zmq_socket) (flags : Z) (message : message_t).

(** X6.  The raw string codec: unpacking what [pack] wrote gives the
    string back, for every string (empty, or with NUL bytes); a raw send
    hands the transport one frame holding exactly the bytes of the string;
    and a raw receive accepts every frame the transport delivers, as the
    string of its bytes, returning false only when the transport returned
    false or threw, with the result left as it was. *)
Theorem raw_channel_round_trip (object result : string) flags w :
  raw_unpack (raw_pack object) = (object, true)
  /\ (exists sent w',
        send_raw zmq_send object flags w = (ok sent, w')
        /\ frames w'
           = frames w ++ [mk_frame (list_byte_of_string object) flags sent])
  /\ match zmq_recv flags (m_socket (self w)) with
     | (ok (Some m), z) =>
         recv_raw zmq_recv result flags w
         = (ok (true, string_of_list_byte m),
            mk_world (moved_to z w) (logged w) (frames w))
         /\ (m = list_byte_of_string object ->
             fst (recv_raw zmq_recv result flags w) = ok (true, object))
     | (_, z) =>
         fst (recv_raw zmq_recv result flags w) = ok (false, result)
     end.
Proof.
  split; [|split].
  - unfold raw_unpack. rewrite raw_pack_bytes.
    now rewrite string_of_list_byte_of_string.
  - unfold send_raw. rewrite raw_pack_bytes. apply send_frame.
  - rewrite recv_raw_cases.
    destruct (zmq_recv flags (m_socket (self w))) as [[[m|]|what] z];
      try reflexivity.
    split; [reflexivity|]. intros ->. simpl.
    now rewrite string_of_list_byte_of_string.
Qed.

(** X7.  A typed receive never throws and tells its two failures apart
    only in the log.  When the transport returns false or throws, it
    returns false with the result untouched (the throw logged as
    ["net: [recv()] <what>"]).  When a frame arrives that the decoder
    rejects, it returns false after one line at [LOG_ERR],
    ["net: [recv()] corrupted object - <what>"], the result being whatever
    the decoder left.  It returns true exactly when a frame arrived and
    decoded, and then logs nothing. *)
Theorem recv_value_failures {A : Type}
    (unpack : message_t -> A -> A * option string) (result : A) flags w :
  match zmq_recv flags (m_socket (self w)) with
  | (ok (Some m), z) =>
      match unpack m result with
      | (result', Some what) =>
          recv_value zmq_recv unpack result flags w
          = (ok (false, result'),
             mk_world (moved_to z w)
               (logged w
                ++ [(LOG_ERR,
                     ("net: [recv()] corrupted object - " ++ what)%string)])
               (frames w))
      | (result', None) =>
          recv_value zmq_recv unpack result flags w
          = (ok (true, result'),
             mk_world (moved_to z w) (logged w) (frames w))
      end
  | (ok None, z) =>
      recv_value zmq_recv unpack result flags w
      = (ok (false, result), mk_world (moved_to z w) (logged w) (frames w))
  | (raised what, z) =>
      recv_value zmq_recv unpack result flags w
      = (ok (false, result),
         mk_world (moved_to z w)
           (logged w ++ [(LOG_ERR, ("net: [recv()] " ++ what)%string)])
           (frames w))
  end.
Proof.
  rewrite recv_value_cases.
  destruct (zmq_recv flags (m_socket (self w))) as [[[m|]|what] z];
    try reflexivity.
  destruct (unpack m result) as [result' [what|]]; reflexivity.
Qed.

(** X8.  Sending a tuple of any arity, the empty one included, returns;
    it leaves [m_endpoint] and [m_route] alone, hands the transport at
    most as many frames as the tuple has elements, and writes at most one
    line to syslog -- none when it returns true.  For the empty tuple it
    returns true and changes nothing. *)
Theorem send_multi_effects (o : list element) flags w :
  exists sent w',
    send_multi zmq_send o flags w = (ok sent, w')
    /\ m_endpoint (self w') = m_endpoint (self w)
    /\ m_route (self w') = m_route (self w)
    /\ (List.length (frames w') <= List.length (frames w) + List.length o)%nat
    /\ (logged w' = logged w
        \/ (sent = false
            /\ exists what,
                 logged w' = logged w ++ [(LOG_ERR, format_net "send" what)]))
    /\ (o = [] -> sent = true /\ w' = w).
Proof.
  revert w. induction o as [|e o IH]; intros w.
  - exists true, w. repeat split; auto.
    cbn [List.length]. rewrite Nat.add_0_r. apply Nat.le_refl.
  - destruct o as [|e' o].
    + cbn [send_multi].
      destruct (send_head_effect zmq_send e flags w)
        as (sent & w' & Hs & He & Hr & Hf & Hl).
      exists sent, w'. rewrite Hs, Hf. cbn [List.length].
      rewrite Nat.add_1_r.
      repeat split; auto; discriminate.
    + change (send_multi zmq_send (e :: e' :: o) flags w)
        with (then_ (send_head zmq_send e (Z.lor ZMQ_SNDMORE flags))
                (fun sent => if sent then send_multi zmq_send (e' :: o) flags
                             else ret false) w).
      unfold then_.
      destruct (send_head_effect zmq_send e (Z.lor ZMQ_SNDMORE flags) w)
        as (b & w1 & Hs & He & Hr & Hf & Hl).
      rewrite Hs. destruct b.
      * destruct (IH w1) as (sent & w' & H1 & H2 & H3 & H4 & H5 & _).
        exists sent, w'. rewrite H1, H2, H3, He, Hr.
        destruct Hl as [Hl | [Hl _]]; [|discriminate].
        rewrite <- Hl. rewrite Hf in H4.
        repeat split; auto; try discriminate.
        cbn [List.length] in *. lia.
      * exists false, w1. unfold ret. rewrite He, Hr, Hf.
        repeat split; auto; try discriminate.
        cbn [List.length]. lia.
Qed.

(** X9.  Receiving a tuple stops at the first element whose receive
    fails: if the elements [o1] are received and then the receive of [t]
    fails, [recv_multi] of [o1], [t] and any further elements [o2] returns
    false with [o2] exactly as it was passed in and the socket as the
    failed receive left it -- the transport is not asked for [o2].  When
    no element fails, receiving [o1] then [o2] is receiving them as one
    tuple. *)
Theorem recv_multi_stops_at_failure (o1 o2 o1' : list target) flags w w1 :
  recv_multi zmq_recv o1 flags w = (ok (true, o1'), w1) ->
  (forall t t' w2,
     recv_head zmq_recv t flags w1 = (ok (false, t'), w2) ->
     recv_multi zmq_recv (o1 ++ t :: o2) flags w
     = (ok (false, o1' ++ t' :: o2), w2))
  /\ (forall received o2' w2,
        recv_multi zmq_recv o2 flags w1 = (ok (received, o2'), w2) ->
        recv_multi zmq_recv (o1 ++ o2) flags w
        = (ok (received, o1' ++ o2'), w2)).
Proof.
  intros H. split.
  - intros t t' w2 Ht.
    apply (recv_multi_app zmq_recv o1 (t :: o2) flags w o1' w1
             (false, t' :: o2) w2 H).
    cbn [recv_multi]. unfold then_. rewrite Ht. reflexivity.
  - intros received o2' w2 H2.
    exact (recv_multi_app zmq_recv o1 o2 flags w o1' w1 (received, o2') w2
             H H2).
Qed.

(** The receiving side for raw strings: when the transport delivers the
    bytes of the strings [ss] in order, [recv_multi] into as many raw
    strings returns true with [ss] in them, whatever they held before, and
    logs nothing; these are the frames planned for sending [ss]. *)
Theorem raw_tuple_round_trip (ss olds : list string) (sflags flags : Z) w z' :
  List.length olds = List.length ss ->
  delivers zmq_recv flags (map list_byte_of_string ss) (m_socket (self w)) z' ->
  recv_multi zmq_recv (map target_raw olds) flags w
  = (ok (true, map target_raw ss),
     mk_world (moved_to z' w) (logged w) (frames w))
  /\ (ss <> [] ->
      map fst (plan (map elem_raw ss) sflags) = map list_byte_of_string ss).
Proof.
  intros Hlen Hd. split; [|apply plan_raw_data].
  revert olds w Hlen Hd. induction ss as [|a ss IH]; intros olds w Hlen Hd.
  - destruct olds; [|discriminate]. cbn in Hd. subst z'.
    destruct w as [[z e r] l f]. reflexivity.
  - destruct olds as [|old olds]; [discriminate|].
    injection Hlen as Hlen. cbn [map delivers] in Hd.
    destruct Hd as (z1 & H1 & Hd).
    cbn [map recv_multi recv_head]. unfold then_.
    rewrite recv_raw_cases, H1. cbn [ret fst snd].
    rewrite (IH olds (mk_world (moved_to z1 w) (logged w) (frames w)) Hlen Hd).
    cbn [fst snd]. now rewrite string_of_list_byte_of_string.
Qed.

(** X10.  A tuple of raw strings survives the channel.  Let
    [send_multi] of the strings [ss] return true, and let the frames it
    handed to its transport -- those the call added to the sender's
    frames -- be what the receiver's transport delivers, in order.  Then
    those frames hold exactly the bytes of the strings, and [recv_multi]
    into as many raw strings returns true with [ss] in them, whatever
    they held before, and logs nothing. *)
Theorem raw_tuple_survives_channel (ss olds : list string) (sflags flags : Z)
    (ws ws' wr : world zmq_socket) (z' : zmq_socket) :
  List.length olds = List.length ss ->
  send_multi zmq_send (map elem_raw ss) sflags ws = (ok true, ws') ->
  delivers zmq_recv flags
    (map frame_data (skipn (List.length (frames ws)) (frames ws')))
    (m_socket (self wr)) z' ->
  map frame_data (skipn (List.length (frames ws)) (frames ws'))
  = map list_byte_of_string ss
  /\ recv_multi zmq_recv (map target_raw olds) flags wr
     = (ok (true, map target_raw ss),
        mk_world (moved_to z' wr) (logged wr) (frames wr)).
Proof.
  intros Hlen Hsend Hd.
  assert (Hdata : map frame_data (skipn (List.length (frames ws)) (frames ws'))
                  = map list_byte_of_string ss).
  { destruct ss as [|a ss].
    - cbn in Hsend. unfold ret in Hsend. injection Hsend as <-.
      now rewrite skipn_all.
    - assert (Hne : map elem_raw (a :: ss) <> []) by discriminate.
      destruct (send_multi_frames zmq_send (map elem_raw (a :: ss)) sflags ws Hne)
        as (sent & w' & made & H1 & H2 & H3 & H4 & H5 & _).
      rewrite Hsend in H1. injection H1 as <- <-.
      rewrite H2, skipn_app, skipn_all, Nat.sub_diag. cbn [skipn app].
      assert (Hm : map frame_data made = map fst (map as_sent made)).
      { rewrite map_map. reflexivity. }
      rewrite Hm, H3, (H5 eq_refl), <- (plan_length _ sflags Hne), firstn_all.
      apply plan_raw_data. discriminate. }
  split; [exact Hdata|].
  rewrite Hdata in Hd.
  exact (proj1 (raw_tuple_round_trip ss olds sflags flags wr z' Hlen Hd)).
Qed.

(** X11.  After any sequence of [bind] and [connect] calls that all
    return, [m_endpoint] is the string advertised for the last endpoint
    bound -- what it was before when nothing was bound: [connect] never
    sets it -- and [m_route], the log and the frames are as before. *)
Theorem endpoint_follows_last_bind (cs : list setup) w w' :
  setup_all zmq_bind zmq_connect hostname cs w = (ok tt, w') ->
  m_endpoint (self w')
  = match last_bound cs with
    | Some endpoint => advertised hostname endpoint
    | None => m_endpoint (self w)
    end
  /\ m_route (self w') = m_route (self w)
  /\ logged w' = logged w
  /\ frames w' = frames w.
Proof.
  revert w. induction cs as [|c cs IH]; intros w H.
  - cbn in H. unfold ret in H. injection H as <-. repeat split.
  - cbn [setup_all] in H. unfold then_ in H.
    destruct (setup_call zmq_bind zmq_connect hostname c w)
      as [[[]|what] w1] eqn:E; [|discriminate].
    destruct (IH w1 H) as (He & Hr & Hl & Hf).
    rewrite He, Hr, Hl, Hf. cbn [last_bound].
    destruct c as [endpoint|endpoint]; cbn [setup_call] in E.
    + unfold bind, then_, on_socket, set_endpoint in E.
      destruct (zmq_bind (c_str endpoint) (m_socket (self w)))
        as [[[]|what] z]; [|discriminate].
      injection E as <-. cbn.
      destruct (last_bound cs); repeat split.
    + unfold connect, on_socket in E.
      destruct (zmq_connect (c_str endpoint) (m_socket (self w)))
        as [[[]|what] z]; [|discriminate].
      injection E as <-. cbn.
      destruct (last_bound cs); repeat split.
Qed.


(** X15.  [bind] and [connect] do not catch what the transport throws,
    unlike [send] and [recv]: when a call of a sequence throws, the
    sequence ends with that exception, the calls after it are not made,
    nothing is logged, and [m_endpoint] is what the calls before it
    left -- a failed bind advertises nothing. *)
Theorem setup_stops_at_exception (cs1 cs2 : list setup) (c : setup)
    (what : string) w w1 w2 :
  setup_all zmq_bind zmq_connect hostname cs1 w = (ok tt, w1) ->
  setup_call zmq_bind zmq_connect hostname c w1 = (raised what, w2) ->
  setup_all zmq_bind zmq_connect hostname (cs1 ++ c :: cs2) w
  = (raised what, w2)
  /\ m_endpoint (self w2) = m_endpoint (self w1)
  /\ logged w2 = logged w1.
Proof.
  intros H1 Hc. split.
  - revert w H1. induction cs1 as [|c1 cs1 IH]; intros w H1.
    + cbn in H1. unfold ret in H1. injection H1 as <-.
      cbn [app setup_all]. unfold then_. now rewrite Hc.
    + cbn [app setup_all] in *. unfold then_ in *.
      destruct (setup_call zmq_bind zmq_connect hostname c1 w)
        as [[[]|what1] w'']; [|discriminate].
      now apply IH.
  - destruct c as [endpoint|endpoint]; cbn [setup_call] in Hc.
    + unfold bind, then_, on_socket, set_endpoint in Hc.
      destruct (zmq_bind (c_str endpoint) (m_socket (self w1)))
        as [[[]|what1] z]; [discriminate|].
      injection Hc as _ <-. split; reflexivity.
    + unfold connect, on_socket in Hc.
      destruct (zmq_connect (c_str endpoint) (m_socket (self w1)))
        as [[[]|what1] z]; [discriminate|].
      injection Hc as _ <-. split; reflexivity.
Qed.

End Properties.

(** *** Instances on the loopback transport *)

Import Doubles MoreDoubles.

(** X15 at work: a bind on a transport that throws, after a connect. *)
Lemma setup_stops_at_exception_witness :
  setup_all lo_bind lo_connect "node1"
    ([] ++ do_bind "tcp://*:5000" :: [do_connect "tcp://peer:6000"])
    (fresh (mk_loopback [] [] (Some "Address already in use")))
  = (raised "Address already in use",
     fresh (mk_loopback [] [] (Some "Address already in use"))).
Proof.
  exact (proj1 (setup_stops_at_exception lo_bind lo_connect "node1"
                  [] [do_connect "tcp://peer:6000"] (do_bind "tcp://*:5000")
                  "Address already in use"
                  (fresh (mk_loopback [] [] (Some "Address already in use")))
                  (fresh (mk_loopback [] [] (Some "Address already in use")))
                  (fresh (mk_loopback [] [] (Some "Address already in use")))
                  eq_refl eq_refl)).
Defined.

(** X9 at work: one frame is queued for a tuple of three raw strings;
    the first is filled, the second receive fails, the third string is
    not touched. *)
Lemma recv_multi_stops_at_failure_witness :
  recv_multi lo_recv ([target_raw ""] ++ target_raw "old" :: [target_raw "x"]) 0
    (fresh (mk_loopback [] [[x41]] None))
  = (ok (false, [target_raw "A"] ++ target_raw "old" :: [target_raw "x"]),
     fresh idle).
Proof.
  exact (proj1 (recv_multi_stops_at_failure lo_recv
                  [target_raw ""] [target_raw "x"] [target_raw "A"] 0
                  (fresh (mk_loopback [] [[x41]] None)) (fresh idle) eq_refl)
           (target_raw "old") (target_raw "old") (fresh idle) eq_refl).
Defined.

(** Two queued frames fill two raw strings. *)
Lemma raw_tuple_round_trip_witness :
  recv_multi lo_recv (map target_raw ["x"; "y"]) 0
    (fresh (mk_loopback [] [[x41]; [x42]] None))
  = (ok (true, map target_raw ["A"; "B"]),
     mk_world (moved_to idle (fresh (mk_loopback [] [[x41]; [x42]] None)))
       [] []).
Proof.
  refine (proj1 (raw_tuple_round_trip lo_recv ["A"; "B"] ["x"; "y"] 0 0
                   (fresh (mk_loopback [] [[x41]; [x42]] None)) idle
                   eq_refl _)).
  cbn. eexists. split; [reflexivity|].
  eexists. split; [reflexivity|]. reflexivity.
Defined.

(** X10 at work: two strings sent on the loopback and received from
    it. *)
Lemma raw_tuple_survives_channel_witness :
  let sender := snd (send_multi lo_send (map elem_raw ["A"; "B"]) 0 (fresh idle)) in
  map frame_data (frames sender) = [[x41]; [x42]]
  /\ fst (recv_multi lo_recv (map target_raw ["x"; "y"]) 0 sender)
     = ok (true, map target_raw ["A"; "B"]).
Proof.
  pose proof (raw_tuple_survives_channel lo_send lo_recv
                ["A"; "B"] ["x"; "y"] 0 0 (fresh idle)
                (snd (send_multi lo_send (map elem_raw ["A"; "B"]) 0 (fresh idle)))
                (snd (send_multi lo_send (map elem_raw ["A"; "B"]) 0 (fresh idle)))
                idle eq_refl eq_refl) as H.
  destruct H as [H1 H2].
  - cbn. eexists. split; [reflexivity|].
    eexists. split; [reflexivity|]. reflexivity.
  - split; [exact H1|]. cbv zeta. now rewrite H2.
Defined.

(** X11 at work: a bind followed by a connect leaves the bound endpoint
    advertised. *)
Lemma endpoint_follows_last_bind_witness :
  m_endpoint
    (self (snd (setup_all lo_bind lo_connect "node1"
                  [do_bind "tcp://*:5000"; do_connect "tcp://peer:6000"]
                  (fresh idle))))
  = "node1:5000".
Proof.
  exact (proj1 (endpoint_follows_last_bind lo_bind lo_connect "node1"
                  [do_bind "tcp://*:5000"; do_connect "tcp://peer:6000"]
                  (fresh idle)
                  (snd (setup_all lo_bind lo_connect "node1"
                          [do_bind "tcp://*:5000"; do_connect "tcp://peer:6000"]
                          (fresh idle)))
                  eq_refl)).
Defined.


End LinesMore.

(** ** More on the driver base class *)

Module DriversMore.

Import Drivers DriverRuns DriversFacts.

Section Properties.

Context {dict_t overseer_t source_t digest_t msgpack_socket_t : Type}.
Context (send_tuple : string * dict_t -> msgpack_socket_t -> bool * msgpack_socket_t).

Implicit Types (d : abstract_driver_t overseer_t source_t digest_t msgpack_socket_t).

(** [publish] when the guard holds and when it does not. *)
Lemma publish_cases (dict : dict_t) d :
  (can_publish d ->
     exists pipe,
       m_pipe d = Some pipe
       /\ publish send_tuple dict d
          = (mk_driver (m_id d) (m_parent d) (m_source d)
               (Some (snd (send_tuple (m_id d, dict) pipe))) (m_digest d),
             [(m_id d, dict)]))
  /\ (~ can_publish d -> publish send_tuple dict d = (d, [])).
Proof.
  unfold can_publish, publish.
  destruct (m_pipe d) as [pipe|].
  - destruct (empty (m_id d)) eqn:Ee; simpl.
    + apply empty_iff in Ee. split; [|reflexivity].
      intros [_ H]. contradiction.
    + split.
      * intros _. exists pipe. split; [reflexivity|].
        now destruct (send_tuple (m_id d, dict) pipe).
      * intros H. exfalso. apply H. split; [discriminate|].
        intros Hid. apply empty_iff in Hid. congruence.
  - split; [|reflexivity]. intros [H _]. contradiction.
Qed.

Lemma publish_all_silent (dicts : list dict_t) d :
  ~ can_publish d -> publish_all send_tuple dicts d = (d, []).
Proof.
  intros H. induction dicts as [|dict dicts IH]; [reflexivity|].
  cbn [publish_all].
  rewrite (proj2 (publish_cases dict d) H), IH. reflexivity.
Qed.

(** X13.  Publishing dictionaries one after another: a driver with a
    pipe and a non-empty id hands the pipe one tuple per dictionary, in
    order, each tagged with the same id, and afterwards still has its id,
    parent, source and digest and can publish again; any other driver --
    in particular one just constructed, whose id is empty and whose pipe
    is null -- sends nothing however often [publish] is called, and is
    left as it was. *)
Theorem publish_all_in_order (dicts : list dict_t) d :
  (can_publish d ->
     snd (publish_all send_tuple dicts d)
     = map (fun dict => (m_id d, dict)) dicts
     /\ can_publish (fst (publish_all send_tuple dicts d))
     /\ m_id (fst (publish_all send_tuple dicts d)) = m_id d
     /\ m_parent (fst (publish_all send_tuple dicts d)) = m_parent d
     /\ m_source (fst (publish_all send_tuple dicts d)) = m_source d
     /\ m_digest (fst (publish_all send_tuple dicts d)) = m_digest d)
  /\ (~ can_publish d -> publish_all send_tuple dicts d = (d, []))
  /\ (forall (digest : digest_t) (parent : overseer_t) (source : source_t),
        publish_all send_tuple dicts
          (construct msgpack_socket_t digest parent source)
        = (construct msgpack_socket_t digest parent source, [])).
Proof.
  split; [|split].
  - revert d. induction dicts as [|dict dicts IH]; intros d H.
    + repeat split; apply H.
    + cbn [publish_all map].
      destruct (proj1 (publish_cases dict d) H) as (pipe & Hp & ->).
      set (d1 := mk_driver (m_id d) (m_parent d) (m_source d)
                   (Some (snd (send_tuple (m_id d, dict) pipe))) (m_digest d)).
      assert (H1 : can_publish d1) by (split; [discriminate|apply H]).
      destruct (IH d1 H1) as (Ho & Hc & Hi & Hpa & Hs & Hd).
      destruct (publish_all send_tuple dicts d1) as [d2 out2].
      cbn [fst snd app] in *. rewrite Ho.
      repeat split; try assumption; apply Hc.
  - apply publish_all_silent.
  - intros digest parent source. apply publish_all_silent.
    intros [H _]. now apply H.
Qed.

End Properties.

(** X13 at work: two dictionaries published by a driver named "timer". *)
Lemma publish_all_in_order_witness :
  snd (publish_all Doubles.keep_tuple [7%nat; 8%nat]
         (mk_driver "timer" tt tt (Some []) tt))
  = [("timer", 7%nat); ("timer", 8%nat)].
Proof.
  apply (proj1 (publish_all_in_order Doubles.keep_tuple [7%nat; 8%nat]
                  (mk_driver "timer" tt tt (Some []) tt))).
  split; discriminate.
Defined.

End DriversMore.

(** ** What no call on a socket changes *)

Module MembersFacts.

Import Lines Channel Members.

Section Facts.

Context {zmq_socket : Type}.
Context (zmq_send : message_t -> Z -> zmq_socket -> outcome bool * zmq_socket).
Context (zmq_recv : Z -> zmq_socket -> outcome (option message_t) * zmq_socket).
Context (zmq_bind : string -> zmq_socket -> outcome unit * zmq_socket).
Context (zmq_connect : string -> zmq_socket -> outcome unit * zmq_socket).
Context (zmq_more : zmq_socket -> outcome bool * zmq_socket).
Context (hostname : string).

Implicit Types (w : world zmq_socket) (flags : Z) (message : message_t).
Implicit Types (b : bool).

Lemma keeps_ret b {A : Type} (a : A) : keeps b (@ret zmq_socket A a).
Proof. intros w. split; reflexivity. Qed.

Lemma keeps_then b {A B : Type} (c : net zmq_socket A) (k : A -> net zmq_socket B) :
  keeps b c -> (forall a, keeps b (k a)) -> keeps b (then_ c k).
Proof.
  intros Hc Hk w. unfold then_.
  destruct (Hc w) as [Hr He].
  destruct (c w) as [[a|what] w1]; cbn [snd] in *.
  - destruct (Hk a w1) as [Hr1 He1]. split.
    + now rewrite Hr1.
    + intros Hb. now rewrite (He1 Hb), (He Hb).
  - split; assumption.
Qed.

Lemma keeps_try_catch b {A : Type} (c : net zmq_socket A)
    (handler : string -> net zmq_socket A) :
  keeps b c -> (forall what, keeps b (handler what)) ->
  keeps b (try_catch c handler).
Proof.
  intros Hc Hh w. unfold try_catch.
  destruct (Hc w) as [Hr He].
  destruct (c w) as [[a|what] w1]; cbn [snd] in *.
  - split; assumption.
  - destruct (Hh what w1) as [Hr1 He1]. split.
    + now rewrite Hr1.
    + intros Hb. now rewrite (He1 Hb), (He Hb).
Qed.

Lemma keeps_on_socket b {A : Type} (f : zmq_socket -> outcome A * zmq_socket) :
  keeps b (on_socket f).
Proof.
  intros w. unfold on_socket.
  destruct (f (m_socket (self w))); split; reflexivity.
Qed.

Lemma keeps_syslog b (priority : Z) (text : string) :
  keeps b (@syslog zmq_socket priority text).
Proof. intros w. split; reflexivity. Qed.

Lemma keeps_record_frame b (f : frame) : keeps b (@record_frame zmq_socket f).
Proof. intros w. split; reflexivity. Qed.

Lemma keeps_weaken b {A : Type} (c : net zmq_socket A) :
  keeps true c -> keeps b c.
Proof.
  intros H w. destruct (H w) as [Hr He]. split; [exact Hr|].
  intros _. now apply He.
Qed.

Lemma keeps_send b message flags : keeps b (send zmq_send message flags).
Proof.
  unfold send. apply keeps_then.
  - apply keeps_try_catch; [apply keeps_on_socket|].
    intros what. apply keeps_then; [apply keeps_syslog|].
    intros _. apply keeps_ret.
  - intros sent. apply keeps_then; [apply keeps_record_frame|].
    intros _. apply keeps_ret.
Qed.

Lemma keeps_recv b message flags : keeps b (recv zmq_recv message flags).
Proof.
  unfold recv. apply keeps_try_catch.
  - apply keeps_then; [apply keeps_on_socket|].
    intros [m|]; apply keeps_ret.
  - intros what. apply keeps_then; [apply keeps_syslog|].
    intros _. apply keeps_ret.
Qed.

Lemma keeps_send_head b (e : element) flags :
  keeps b (send_head zmq_send e flags).
Proof.
  destruct e as [A pack value|object]; cbn [send_head].
  - unfold send_value. apply keeps_send.
  - unfold send_raw. apply keeps_send.
Qed.

Lemma keeps_send_multi b (o : list element) flags :
  keeps b (send_multi zmq_send o flags).
Proof.
  induction o as [|e o IH]; [apply keeps_ret|].
  destruct o as [|e' o]; [apply keeps_send_head|].
  change (send_multi zmq_send (e :: e' :: o) flags)
    with (then_ (send_head zmq_send e (Z.lor ZMQ_SNDMORE flags))
            (fun sent => if sent then send_multi zmq_send (e' :: o) flags
                         else ret false)).
  apply keeps_then; [apply keeps_send_head|].
  intros [|]; [exact IH|apply keeps_ret].
Qed.

Lemma keeps_recv_head b (t : target) flags :
  keeps b (recv_head zmq_recv t flags).
Proof.
  destruct t as [A unpack result|result]; cbn [recv_head].
  - apply keeps_then; [|intros r; apply keeps_ret].
    unfold recv_value. apply keeps_then; [apply keeps_recv|].
    intros [received message].
    destruct (negb received); [apply keeps_ret|].
    destruct (unpack message result) as [result' [what|]].
    + apply keeps_then; [apply keeps_syslog|]. intros _. apply keeps_ret.
    + apply keeps_ret.
  - apply keeps_then; [|intros r; apply keeps_ret].
    unfold recv_raw. apply keeps_then; [apply keeps_recv|].
    intros [received message].
    destruct (negb received); [apply keeps_ret|].
    destruct (raw_unpack message). apply keeps_ret.
Qed.

Lemma keeps_recv_multi b (o : list target) flags :
  keeps b (recv_multi zmq_recv o flags).
Proof.
  induction o as [|t o IH]; [apply keeps_ret|].
  cbn [recv_multi]. apply keeps_then; [apply keeps_recv_head|].
  intros [received t']. destruct received; [|apply keeps_ret].
  apply keeps_then; [exact IH|]. intros r. apply keeps_ret.
Qed.

Lemma keeps_ignore b (fuel : nat) : keeps b (ignore zmq_recv zmq_more fuel).
Proof.
  induction fuel as [|fuel IH]; [apply keeps_ret|].
  cbn [ignore]. apply keeps_then; [apply keeps_on_socket|].
  intros [|]; [|apply keeps_ret].
  apply keeps_then; [apply keeps_recv|]. intros _. exact IH.
Qed.

Lemma keeps_bind (endpoint : string) :
  keeps false (bind zmq_bind hostname endpoint).
Proof.
  unfold bind. apply keeps_then; [apply keeps_on_socket|].
  intros _ w. split; [reflexivity|discriminate].
Qed.

Lemma keeps_member (m : member) :
  keeps (negb (is_bind m))
    (member_call zmq_send zmq_recv zmq_bind zmq_connect zmq_more hostname m).
Proof.
  destruct m; cbn [member_call is_bind negb];
    try (apply keeps_then; [|intros ?; apply keeps_ret]).
  - apply keeps_bind.
  - unfold connect. apply keeps_on_socket.
  - apply keeps_send.
  - apply keeps_recv.
  - apply keeps_send_head.
  - apply keeps_recv_head.
  - apply keeps_send_multi.
  - apply keeps_recv_multi.
  - apply keeps_ignore.
Qed.

End Facts.

Section Properties.

Context {zmq_socket : Type}.
Context (zmq_send : message_t -> Z -> zmq_socket -> outcome bool * zmq_socket).
Context (zmq_recv : Z -> zmq_socket -> outcome (option message_t) * zmq_socket).
Context (zmq_bind : string -> zmq_socket -> outcome unit * zmq_socket).
Context (zmq_connect : string -> zmq_socket -> outcome unit * zmq_socket).
Context (zmq_more : zmq_socket -> outcome bool * zmq_socket).
Context (hostname : string).

(** X14.  No member function of the header changes [m_route], and only
    [bind] changes [m_endpoint]: after any sequence of bind, connect,
    send, recv, typed and raw sends and receives, tuple sends and
    receives and ignore -- however each call ends, a thrown exception
    included -- the route is the one the socket had, and so is the
    endpoint when no call was a bind. *)
Theorem socket_keeps_route (ms : list member) (w : world zmq_socket) :
  m_route (self (snd (member_calls zmq_send zmq_recv zmq_bind zmq_connect
                        zmq_more hostname ms w)))
  = m_route (self w)
  /\ (forallb (fun m => negb (is_bind m)) ms = true ->
      m_endpoint (self (snd (member_calls zmq_send zmq_recv zmq_bind
                               zmq_connect zmq_more hostname ms w)))
      = m_endpoint (self w)).
Proof.
  assert (H : keeps (forallb (fun m => negb (is_bind m)) ms)
                (member_calls zmq_send zmq_recv zmq_bind zmq_connect zmq_more
                   hostname ms)).
  { induction ms as [|m ms IH]; [apply keeps_ret|].
    cbn [member_calls forallb]. apply keeps_then.
    - intros w0.
      destruct (keeps_member zmq_send zmq_recv zmq_bind zmq_connect zmq_more
                  hostname m w0) as [Hr He].
      split; [exact Hr|]. intros Hb. apply andb_prop in Hb as [Hb _].
      now apply He.
    - intros _ w0. destruct (IH w0) as [Hr He].
      split; [exact Hr|]. intros Hb. apply andb_prop in Hb as [_ Hb].
      now apply He. }
  exact (H w).
Qed.

End Properties.

End MembersFacts.

(** ** The MessagePack codec and the channel *)

Module MsgPackFacts.

Import Lines LinesFacts MsgPack Doubles.

(** *** Bytes and numbers *)

Lemma of_byte_range (b : byte) : 0 <= of_byte b < 256.
Proof.
  unfold of_byte. pose proof (Byte.to_N_bounded b). lia.
Qed.

Lemma of_byte_of (n : Z) : 0 <= n < 256 -> of_byte (byte_of n) = n.
Proof.
  intros H. unfold of_byte, byte_of.
  destruct (Byte.of_N (Z.to_N n)) as [b|] eqn:E.
  - apply Byte.to_of_N in E. rewrite E. lia.
  - apply Byte.of_N_None_iff in E. lia.
Qed.

Lemma be_length (k : nat) (n : Z) : List.length (be k n) = k.
Proof.
  revert n. induction k as [|k IH]; intros n; [reflexivity|].
  cbn [be]. rewrite length_app, IH. cbn. lia.
Qed.

Lemma from_be_be (k : nat) (n : Z) :
  0 <= n < 256 ^ Z.of_nat k -> from_be (be k n) = n.
Proof.
  revert n. induction k as [|k IH]; intros n H.
  - cbn in *. lia.
  - cbn [be]. unfold from_be in *. rewrite fold_left_app. cbn [fold_left].
    rewrite Nat2Z.inj_succ, Z.pow_succ_r in H by lia.
    rewrite IH.
    + rewrite of_byte_of by (apply Z.mod_pos_bound; lia).
      pose proof (Z.div_mod n 256). lia.
    + split; [apply Z.div_pos; lia|].
      apply Z.div_lt_upper_bound; lia.
Qed.

Lemma take_app (a rest : list byte) :
  take (List.length a) (a ++ rest) = Some (a, rest).
Proof.
  unfold take. rewrite length_app.
  destruct (Nat.leb_spec (List.length a) (List.length a + List.length rest));
    [|lia].
  rewrite firstn_app, Nat.sub_diag, firstn_all, firstn_O, app_nil_r.
  rewrite skipn_app, Nat.sub_diag, skipn_all. reflexivity.
Qed.

Lemma with_number_be {A : Type} (w : nat) (n : Z) (rest : list byte)
    (k : Z -> list byte -> option A) :
  0 <= n < 256 ^ Z.of_nat w ->
  with_number w (be w n ++ rest) k = k n rest.
Proof.
  intros H. unfold with_number.
  rewrite <- (be_length w n) at 1. rewrite take_app.
  now rewrite from_be_be.
Qed.

Lemma bytes_of_app (wrap : list byte -> value) (s rest : list byte) :
  bytes_of wrap (Z.of_nat (List.length s)) (s ++ rest) = Some (wrap s, rest).
Proof.
  unfold bytes_of. now rewrite Nat2Z.id, take_app.
Qed.

(** *** First bytes *)

Lemma classify_uint (n : Z) : 0 <= n < 128 -> classify n = t_uint n.
Proof.
  intros H. unfold classify.
  destruct (Z.ltb_spec n 128); [reflexivity|lia].
Qed.

Lemma classify_map (len : Z) : 0 <= len < 16 -> classify (128 + len) = t_map len.
Proof.
  intros H. unfold classify.
  destruct (Z.ltb_spec (128 + len) 128); [lia|].
  destruct (Z.ltb_spec (128 + len) 144); [|lia].
  f_equal. lia.
Qed.

Lemma classify_arr (len : Z) : 0 <= len < 16 -> classify (144 + len) = t_arr len.
Proof.
  intros H. unfold classify.
  destruct (Z.ltb_spec (144 + len) 128); [lia|].
  destruct (Z.ltb_spec (144 + len) 144); [lia|].
  destruct (Z.ltb_spec (144 + len) 160); [|lia].
  f_equal. lia.
Qed.

Lemma classify_str (len : Z) : 0 <= len < 32 -> classify (160 + len) = t_str len.
Proof.
  intros H. unfold classify.
  destruct (Z.ltb_spec (160 + len) 128); [lia|].
  destruct (Z.ltb_spec (160 + len) 144); [lia|].
  destruct (Z.ltb_spec (160 + len) 160); [lia|].
  destruct (Z.ltb_spec (160 + len) 192); [|lia].
  f_equal. lia.
Qed.

Lemma classify_neg (z : Z) : -32 <= z < 0 -> classify (256 + z) = t_neg z.
Proof.
  intros H. unfold classify.
  destruct (Z.ltb_spec (256 + z) 128); [lia|].
  destruct (Z.ltb_spec (256 + z) 144); [lia|].
  destruct (Z.ltb_spec (256 + z) 160); [lia|].
  destruct (Z.ltb_spec (256 + z) 192); [lia|].
  destruct (Z.leb_spec 224 (256 + z)); [|lia].
  f_equal. lia.
Qed.

Lemma decode_step (fuel : nat) (b : byte) (rest : list byte) :
  decode (S fuel) (b :: rest)
  = decode_tag (decode fuel) (classify (of_byte b)) rest.
Proof. reflexivity. Qed.

(** *** Numbers *)

Ltac widths :=
  change (256 ^ Z.of_nat 1) with 256;
  change (256 ^ Z.of_nat 2) with 65536;
  change (256 ^ Z.of_nat 4) with 4294967296;
  change (256 ^ Z.of_nat 8) with 18446744073709551616.

Lemma decode_uint (fuel : nat) (n : Z) (rest : list byte) :
  0 <= n < 18446744073709551616 ->
  decode (S fuel) (encode_uint n ++ rest) = Some (Uint n, rest).
Proof.
  intros H. unfold encode_uint.
  destruct (Z.ltb_spec n 128).
  - cbn [app]. rewrite decode_step, of_byte_of, classify_uint by lia.
    reflexivity.
  - destruct (Z.ltb_spec n 256);
      [|destruct (Z.ltb_spec n 65536);
        [|destruct (Z.ltb_spec n 4294967296)]];
      rewrite <- app_comm_cons, decode_step;
      change (classify (of_byte xcc)) with (t_u 1);
      change (classify (of_byte xcd)) with (t_u 2);
      change (classify (of_byte xce)) with (t_u 4);
      change (classify (of_byte xcf)) with (t_u 8);
      cbn [decode_tag]; rewrite with_number_be; try reflexivity;
      widths; lia.
Qed.

Lemma signed_negative (w : nat) (z : Z) :
  (0 < w)%nat ->
  - 2 ^ (8 * Z.of_nat w - 1) <= z < 0 ->
  signed w (2 ^ (8 * Z.of_nat w) + z) = Int z.
Proof.
  intros Hw H. unfold signed.
  assert (E : 2 ^ (8 * Z.of_nat w) = 2 * 2 ^ (8 * Z.of_nat w - 1)).
  { rewrite <- Z.pow_succ_r by lia. f_equal. lia. }
  destruct (Z.ltb_spec (2 ^ (8 * Z.of_nat w) + z) (2 ^ (8 * Z.of_nat w - 1)));
    [lia|].
  f_equal. lia.
Qed.

Lemma decode_int (fuel : nat) (z : Z) (rest : list byte) :
  -9223372036854775808 <= z < 0 ->
  decode (S fuel) (encode_int z ++ rest) = Some (Int z, rest).
Proof.
  intros H. unfold encode_int.
  destruct (Z.leb_spec (-32) z).
  - cbn [app]. rewrite decode_step, of_byte_of, classify_neg by lia.
    reflexivity.
  - destruct (Z.leb_spec (-128) z);
      [|destruct (Z.leb_spec (-32768) z);
        [|destruct (Z.leb_spec (-2147483648) z)]];
      rewrite <- app_comm_cons, decode_step;
      change (classify (of_byte xd0)) with (t_i 1);
      change (classify (of_byte xd1)) with (t_i 2);
      change (classify (of_byte xd2)) with (t_i 4);
      change (classify (of_byte xd3)) with (t_i 8);
      cbn [decode_tag]; rewrite with_number_be by (widths; lia).
    + change 256 with (2 ^ (8 * Z.of_nat 1)).
      rewrite signed_negative; [reflexivity|lia|].
      change (2 ^ (8 * Z.of_nat 1 - 1)) with 128. lia.
    + change 65536 with (2 ^ (8 * Z.of_nat 2)).
      rewrite signed_negative; [reflexivity|lia|].
      change (2 ^ (8 * Z.of_nat 2 - 1)) with 32768. lia.
    + change 4294967296 with (2 ^ (8 * Z.of_nat 4)).
      rewrite signed_negative; [reflexivity|lia|].
      change (2 ^ (8 * Z.of_nat 4 - 1)) with 2147483648. lia.
    + change 18446744073709551616 with (2 ^ (8 * Z.of_nat 8)).
      rewrite signed_negative; [reflexivity|lia|].
      change (2 ^ (8 * Z.of_nat 8 - 1)) with 9223372036854775808. lia.
Qed.

(** *** Strings, arrays and maps *)

Lemma decode_str (fuel : nat) (s rest : list byte) :
  Z.of_nat (List.length s) < 4294967296 ->
  decode (S fuel) ((str_header (Z.of_nat (List.length s)) ++ s) ++ rest)
  = Some (Str s, rest).
Proof.
  intros H. rewrite <- app_assoc. unfold str_header.
  destruct (Z.ltb_spec (Z.of_nat (List.length s)) 32).
  - cbn [app]. rewrite decode_step, of_byte_of, classify_str by lia.
    apply bytes_of_app.
  - destruct (Z.ltb_spec (Z.of_nat (List.length s)) 256);
      [|destruct (Z.ltb_spec (Z.of_nat (List.length s)) 65536)];
      rewrite <- app_comm_cons, decode_step;
      change (classify (of_byte xd9)) with (t_strn 1);
      change (classify (of_byte xda)) with (t_strn 2);
      change (classify (of_byte xdb)) with (t_strn 4);
      cbn [decode_tag];
      rewrite with_number_be by (widths; lia); apply bytes_of_app.
Qed.

Lemma decode_bin (fuel : nat) (s rest : list byte) :
  Z.of_nat (List.length s) < 4294967296 ->
  decode (S fuel) ((bin_header (Z.of_nat (List.length s)) ++ s) ++ rest)
  = Some (Bin s, rest).
Proof.
  intros H. rewrite <- app_assoc. unfold bin_header.
  destruct (Z.ltb_spec (Z.of_nat (List.length s)) 256);
    [|destruct (Z.ltb_spec (Z.of_nat (List.length s)) 65536)];
    rewrite <- app_comm_cons, decode_step;
    change (classify (of_byte xc4)) with (t_bin 1);
    change (classify (of_byte xc5)) with (t_bin 2);
    change (classify (of_byte xc6)) with (t_bin 4);
    cbn [decode_tag];
    rewrite with_number_be by (widths; lia); apply bytes_of_app.
Qed.

Lemma decode_arr_header (fuel : nat) (len : Z) (body : list byte) :
  0 <= len < 4294967296 ->
  decode (S fuel) (arr_header len ++ body) = items_of (decode fuel) len body.
Proof.
  intros H. unfold arr_header.
  destruct (Z.ltb_spec len 16).
  - cbn [app]. rewrite decode_step, of_byte_of, classify_arr by lia.
    reflexivity.
  - destruct (Z.ltb_spec len 65536);
      rewrite <- app_comm_cons, decode_step;
      change (classify (of_byte xdc)) with (t_arrn 2);
      change (classify (of_byte xdd)) with (t_arrn 4);
      cbn [decode_tag]; rewrite with_number_be by (widths; lia);
      reflexivity.
Qed.

Lemma decode_map_header (fuel : nat) (len : Z) (body : list byte) :
  0 <= len < 4294967296 ->
  decode (S fuel) (map_header len ++ body) = entries_of (decode fuel) len body.
Proof.
  intros H. unfold map_header.
  destruct (Z.ltb_spec len 16).
  - cbn [app]. rewrite decode_step, of_byte_of, classify_map by lia.
    reflexivity.
  - destruct (Z.ltb_spec len 65536);
      rewrite <- app_comm_cons, decode_step;
      change (classify (of_byte xde)) with (t_mapn 2);
      change (classify (of_byte xdf)) with (t_mapn 4);
      cbn [decode_tag]; rewrite with_number_be by (widths; lia);
      reflexivity.
Qed.

(** Items read back one after another by a decoder that inverts the
    encoder on each of them. *)
Lemma decode_seq_all {A : Type} (dec : list byte -> option (A * list byte))
    (enc : A -> list byte) (xs : list A) (rest : list byte) :
  (forall x rest', In x xs -> dec (enc x ++ rest') = Some (x, rest')) ->
  decode_seq dec (List.length xs) (flat_map enc xs ++ rest) = Some (xs, rest).
Proof.
  induction xs as [|x xs IH]; intros H; [reflexivity|].
  cbn [List.length flat_map decode_seq]. rewrite <- app_assoc.
  rewrite H by (left; reflexivity).
  rewrite IH; [reflexivity|].
  intros y rest' Hy. apply H. now right.
Qed.

Lemma fold_max_ge {A : Type} (f : A -> nat) (xs : list A) (x : A) :
  In x xs -> (f x <= fold_right (fun y h => Nat.max (f y) h) O xs)%nat.
Proof.
  induction xs as [|y xs IH]; intros H; [contradiction|].
  cbn [fold_right]. destruct H as [-> | H]; [lia|].
  specialize (IH H). lia.
Qed.

Ltac bounds :=
  repeat match goal with
         | H : _ && _ = true |- _ => apply andb_prop in H; destruct H
         | H : (_ <=? _) = true |- _ => apply Z.leb_le in H
         | H : (_ <? _) = true |- _ => apply Z.ltb_lt in H
         end.

(** *** The round trip *)

(** Decoding what was encoded, whatever follows it, gives the value back
    and leaves what follows, as soon as the fuel covers the nesting. *)
Lemma decode_encode (fuel : nat) :
  forall (v : value) (rest : list byte),
    representable v = true ->
    (height v <= fuel)%nat ->
    decode fuel (encode v ++ rest) = Some (v, rest).
Proof.
  induction fuel as [|fuel IH]; intros v rest Hr Hh.
  - destruct v; cbn in Hh; lia.
  - destruct v as [|b|n|z|bits|bits|s|s|items|entries];
      cbn [encode representable height] in *; bounds.
    + reflexivity.
    + destruct b; reflexivity.
    + apply decode_uint. lia.
    + apply decode_int. lia.
    + rewrite <- app_comm_cons, decode_step.
      change (classify (of_byte xca)) with t_f32. cbn [decode_tag].
      rewrite with_number_be by (widths; lia). reflexivity.
    + rewrite <- app_comm_cons, decode_step.
      change (classify (of_byte xcb)) with t_f64. cbn [decode_tag].
      rewrite with_number_be by (widths; lia). reflexivity.
    + now apply decode_str.
    + now apply decode_bin.
    + rewrite <- app_assoc, decode_arr_header by lia.
      unfold items_of. rewrite Nat2Z.id.
      rewrite (decode_seq_all (decode fuel) encode); [reflexivity|].
      intros x rest' Hx. apply IH.
      * match goal with
        | H : forallb _ _ = true |- _ =>
            exact (proj1 (forallb_forall _ _) H x Hx)
        end.
      * pose proof (fold_max_ge height items x Hx). lia.
    + rewrite <- app_assoc, decode_map_header by lia.
      unfold entries_of. rewrite Nat2Z.id.
      rewrite (decode_seq_all (decode_pair (decode fuel))
                 (fun kv : value * value =>
                    let (k, x) := kv in encode k ++ encode x));
        [reflexivity|].
      intros [k x] rest' Hx.
      pose proof (fold_max_ge
                    (fun kv : value * value =>
                       let (k, x) := kv in Nat.max (height k) (height x))
                    entries (k, x) Hx) as Hm.
      cbn beta iota in Hm.
      match goal with
      | H : forallb _ _ = true |- _ =>
          pose proof (proj1 (forallb_forall _ _) H (k, x) Hx) as Hkx
      end.
      cbn beta iota in Hkx. apply andb_prop in Hkx as [Hk Hx'].
      unfold decode_pair. rewrite <- app_assoc.
      rewrite (IH k) by (assumption || lia).
      rewrite (IH x) by (assumption || lia). reflexivity.
Qed.

(** *** Fuel *)

Lemma header_lengths (len : Z) :
  (1 <= List.length (str_header len))%nat
  /\ (1 <= List.length (bin_header len))%nat
  /\ (1 <= List.length (arr_header len))%nat
  /\ (1 <= List.length (map_header len))%nat.
Proof.
  unfold str_header, bin_header, arr_header, map_header.
  repeat split;
    repeat match goal with
           | |- context [if ?c then _ else _] => destruct c
           end;
    cbn [List.length]; lia.
Qed.

Lemma fold_max_le_flat {A : Type} (f : A -> nat) (enc : A -> list byte)
    (xs : list A) :
  (forall x, In x xs -> (f x <= List.length (enc x))%nat) ->
  (fold_right (fun y h => Nat.max (f y) h) O xs
   <= List.length (flat_map enc xs))%nat.
Proof.
  induction xs as [|x xs IH]; intros H; [apply Nat.le_refl|].
  cbn [fold_right flat_map]. rewrite length_app.
  pose proof (H x (or_introl eq_refl)).
  assert (forall y, In y xs -> (f y <= List.length (enc y))%nat)
    by (intros y Hy; apply H; now right).
  specialize (IH H1). lia.
Qed.

(** A value nests no deeper than its encoding is long. *)
Lemma height_le_length (n : nat) :
  forall v : value,
    (height v <= n)%nat -> (height v <= List.length (encode v))%nat.
Proof.
  induction n as [|n IH]; intros v H.
  - destruct v; cbn in H; lia.
  - destruct v as [|b|m|z|bits|bits|s|s|items|entries];
      cbn [height encode] in *.
    + cbn. lia.
    + destruct b; cbn; lia.
    + unfold encode_uint.
      repeat match goal with
             | |- context [if ?c then _ else _] => destruct c
             end; cbn [List.length]; lia.
    + unfold encode_int.
      repeat match goal with
             | |- context [if ?c then _ else _] => destruct c
             end; cbn [List.length]; lia.
    + cbn [List.length]. lia.
    + cbn [List.length]. lia.
    + rewrite length_app.
      pose proof (header_lengths (Z.of_nat (List.length s))). lia.
    + rewrite length_app.
      pose proof (header_lengths (Z.of_nat (List.length s))). lia.
    + rewrite length_app.
      pose proof (header_lengths (Z.of_nat (List.length items))).
      assert ((fold_right (fun y h => Nat.max (height y) h) O items
               <= List.length (flat_map encode items))%nat).
      { apply fold_max_le_flat. intros x Hx. apply IH.
        pose proof (fold_max_ge height items x Hx). lia. }
      lia.
    + rewrite length_app.
      pose proof (header_lengths (Z.of_nat (List.length entries))).
      assert ((fold_right
                 (fun (kv : value * value) h =>
                    Nat.max (let (k, x) := kv in Nat.max (height k) (height x)) h)
                 O entries
               <= List.length
                    (flat_map (fun kv : value * value =>
                                 let (k, x) := kv in encode k ++ encode x)
                       entries))%nat).
      { apply (fold_max_le_flat
                 (fun kv : value * value =>
                    let (k, x) := kv in Nat.max (height k) (height x))).
        intros [k x] Hx. rewrite length_app.
        pose proof (fold_max_ge
                      (fun kv : value * value =>
                         let (k, x) := kv in Nat.max (height k) (height x))
                      entries (k, x) Hx) as Hm.
        cbn beta iota in Hm.
        assert ((height k <= List.length (encode k))%nat) by (apply IH; lia).
        assert ((height x <= List.length (encode x))%nat) by (apply IH; lia).
        lia. }
      lia.
Qed.

(** Unpacking what was packed gives the value back, whatever the result
    held, and throws nothing. *)
Lemma unpack_pack (v result : value) :
  representable v = true -> unpack (pack v) result = (v, None).
Proof.
  intros Hr. unfold unpack, pack.
  rewrite <- (app_nil_r (encode v)) at 2.
  rewrite decode_encode; [reflexivity|exact Hr|].
  pose proof (height_le_length (height v) v (Nat.le_refl _)). lia.
Qed.

(** The encodings of some values, as the format gives them. *)
Example encode_samples :
  encode Nil = [xc0]
  /\ encode (Bool true) = [xc3]
  /\ encode (Uint 255) = [xcc; xff]
  /\ encode (Uint 256) = [xcd; x01; x00]
  /\ encode (Uint 65536) = [xce; x00; x01; x00; x00]
  /\ encode (Int (-1)) = [xff]
  /\ encode (Int (-33)) = [xd0; xdf]
  /\ encode (Str [x68; x69]) = [xa2; x68; x69]
  /\ encode (Arr [Uint 1; Uint 2; Uint 3]) = [x93; x01; x02; x03]
  /\ encode (Map [(Str [x61], Uint 1)]) = [x81; xa1; x61; x01].
Proof. repeat split. Qed.

Section Claims.

Context {zmq_socket : Type}.
Context (zmq_send : message_t -> Z -> zmq_socket -> outcome bool * zmq_socket).
Context (zmq_recv : Z -> zmq_socket -> outcome (option message_t) * zmq_socket).

(** C8, codec round trip.  For every value [v] the codec represents --
    nil, booleans, integers of at most 64 bits, floats by their bits,
    strings, byte strings, arrays and maps of fewer than 2^32 elements,
    nested at will -- decoding the encoding of [v] yields [v] and nothing
    is left over; so unpacking what was packed gives [v] whatever the
    result held; a typed send of [v] hands the transport one frame,
    holding exactly that encoding; and a typed receive to which the
    transport delivers it returns true with [v] in the result, and logs
    nothing. *)
Theorem msgpack_round_trip (v : value) :
  representable v = true ->
  decode (S (List.length (encode v))) (encode v) = Some (v, [])
  /\ (forall result, unpack (pack v) result = (v, None))
  /\ (forall flags (w : world zmq_socket),
        exists sent w',
          send_value zmq_send pack v flags w = (ok sent, w')
          /\ frames w' = frames w ++ [mk_frame (encode v) flags sent])
  /\ (forall flags (w : world zmq_socket) z result,
        zmq_recv flags (m_socket (self w)) = (ok (Some (encode v)), z) ->
        recv_value zmq_recv unpack result flags w
        = (ok (true, v), mk_world (moved_to z w) (logged w) (frames w))).
Proof.
  intros Hr.
  assert (Hd : decodes_to unpack (pack v) v).
  { intros result. now apply unpack_pack. }
  split; [|split; [exact Hd|]].
  - rewrite <- (app_nil_r (encode v)) at 2.
    apply decode_encode; [exact Hr|].
    pose proof (height_le_length (height v) v (Nat.le_refl _)). lia.
  - exact (codec_round_trip zmq_send zmq_recv pack unpack v Hd).
Qed.

End Claims.

(** C8 at work: a map holding a string, integers of both signs, a float
    and a nested array is sent on the loopback and received from it. *)
Lemma msgpack_round_trip_witness :
  let v := Map [(Str [x69; x64], Uint 300);
                (Str [x61], Arr [Int (-5); Bool true; Nil; F64 1; Bin [x00]])] in
  let sender := snd (send_value lo_send pack v 0 (fresh idle)) in
  representable v = true
  /\ fst (recv_value lo_recv unpack Nil 0 sender) = ok (true, v).
Proof.
  cbv zeta. split; [reflexivity|].
  pose proof (msgpack_round_trip lo_send lo_recv
                (Map [(Str [x69; x64], Uint 300);
                      (Str [x61],
                       Arr [Int (-5); Bool true; Nil; F64 1; Bin [x00]])])
                eq_refl) as (_ & _ & _ & H).
  rewrite (H 0 _ idle Nil); reflexivity.
Defined.

End MsgPackFacts.
